(** * Lexical-Analyzer-Generator: the NFA compiler and its traversal primitives

    A shallow embedding of [src/fa.py] (class [FA]: [move], the memoised
    [__epsilon_closure], [get_epsilon_closures], [state_exists]) and of
    [src/nfa.py] (class [NFA]: Thompson's construction driven by a
    shunting-yard scan, and the acceptance utilities), followed by the
    properties of the specification that were checked against them and by
    further properties of the code: the inputs that the fragments accept,
    the states and the exceptions of a compilation, and the traversal of
    the compiled automata.

    Conventions of the embedding
    - a Python [int] is a [Z]; a Python character is its code point (a [Z]),
      a Python [str] is a [list Z];
    - a Python exception is a value of [exn]; a call that may raise returns
      [exn + A];
    - the class variable [NFA.__cni] (the node counter) is threaded through
      the construction functions by the monad [M];
    - the memo table of [__memoize_epsilon] and the [set] objects that
      [move] and [get_epsilon_closures] update in place live in [tstate]. *)

From stdpp Require Import gmap strings list fin_maps.

Open Scope Z_scope.

(** ** Characters and strings *)

Definition py_str (s : string) : list Z :=
  (λ a, Z.of_N (Ascii.N_of_ascii a)) <$> String.list_ascii_of_string s.

Definition ch_newline : Z := 10.
Definition ch_amp : Z := 38.        (* & *)
Definition ch_lparen : Z := 40.
Definition ch_rparen : Z := 41.
Definition ch_star : Z := 42.
Definition ch_plus : Z := 43.
Definition ch_minus : Z := 45.
Definition ch_L : Z := 76.
Definition ch_backslash : Z := 92.
Definition ch_pipe : Z := 124.
(** [FA.epsilon = 'ε'] *)
Definition epsilon : Z := 949.

(** ** Exceptions *)

Inductive exn :=
| ValueError (msg : string)
| IndexError
| AttributeError
| KeyError
| NetworkXError
| OverflowError
| RecursionError.

Definition msg_empty_tokens : string := "Tokens list can't be empty".
Definition msg_range : string :=
  "Error in Regex format, range start must be less than range end.".
Definition msg_none_node : string := "None cannot be a node".
Definition msg_chr : string := "chr() arg not in range(0x110000)".

(** ** Edge weights

    The [weight] attribute of an edge holds one of three Python values:
    the string [FA.epsilon], the string [repr(edge_weight)] written by
    [concatenate_node], or the integer [char_ord] written by
    [add_nodes_in_range].  [W_repr s] stands for the string [repr(s)] of the
    Python string [s]; it always starts with a quote, hence is never equal
    to the one-character string [FA.epsilon]. *)
Inductive weight :=
| W_epsilon
| W_repr (s : list Z)
| W_ord (n : Z).

#[export] Instance weight_eq_dec : EqDecision weight.
Proof. solve_decision. Defined.

(** ** networkx.MultiDiGraph

    [node] is the graph's node dictionary (node to attribute dictionary);
    [adj] maps a pair [(u, v)] to the key dictionary of the parallel edges
    from [u] to [v]: edges are never removed, so the keys are
    [0 .. length - 1] in insertion order and the list position is the key. *)
Record MultiDiGraph := {
  node : gmap Z (gmap string string);
  adj : gmap (Z * Z) (list weight)
}.

Definition empty_graph : MultiDiGraph := {| node := ∅; adj := ∅ |}.

Definition add_edge (u v : Z) (w : weight) (G : MultiDiGraph) : MultiDiGraph :=
  {| node := node G ∪ {[u := ∅]} ∪ {[v := ∅]};
     adj := <[(u, v) := default [] (adj G !! (u, v)) ++ [w]]> (adj G) |}.

(** The nodes of the graphs are integers.  The endpoints come from
    [start_node] / [end_node] fields that may still be [None]: networkx
    says that [None] should not be used as a node, its version 1 adds it
    all the same and later versions raise this [ValueError]; here the
    construction stops with that error.  Started at a positive counter,
    the compiler never adds an edge at [None] (see [from_regex_inl]). *)
Fixpoint add_weighted_edges_from (ebunch : list (option Z * option Z * weight))
    (G : MultiDiGraph) : exn + MultiDiGraph :=
  match ebunch with
  | [] => inr G
  | (Some u, Some v, w) :: rest => add_weighted_edges_from rest (add_edge u v w G)
  | _ => inl (ValueError msg_none_node)
  end.

(** [nx.compose(G, H)]: union of nodes and edges, the attributes of [H]
    taking precedence over those of [G]. *)
Definition compose (G H : MultiDiGraph) : MultiDiGraph :=
  {| node := node H ∪ node G;
     adj := union_with (λ h g, Some (h ++ drop (length h) g)) (adj H) (adj G) |}.

(** [graph.neighbors(n)]: the successors of [n]. *)
Definition neighbors (G : MultiDiGraph) (n : Z) : exn + list Z :=
  if decide (n ∈ dom (node G))
  then inr (omap (λ e, if decide (e.1.1 = n) then Some e.1.2 else None)
                 (map_to_list (adj G)))
  else inl NetworkXError.

(** [graph.get_edge_data(u, v)[0]['weight']] *)
Definition get_edge_data_0 (G : MultiDiGraph) (u v : Z) : exn + weight :=
  match adj G !! (u, v) with
  | Some (w :: _) => inr w
  | _ => inl KeyError
  end.

(** [graph.edges_iter(n, True)]: the out-edges of [n], parallel edges
    included, as (destination, weight). *)
Definition edges_iter (G : MultiDiGraph) (n : Z) : exn + list (Z * weight) :=
  if decide (n ∈ dom (node G))
  then inr (mjoin ((λ e, if decide (e.1.1 = n) then (λ w, (e.1.2, w)) <$> e.2 else [])
                   <$> map_to_list (adj G)))
  else inl NetworkXError.

(** ** The automaton object (fields of [FA] and [NFA] used here) *)
Record NFA := {
  start_node : option Z;
  end_node : option Z;
  graph : MultiDiGraph
}.

(** [NFA()] *)
Definition NFA_new : NFA :=
  {| start_node := None; end_node := None; graph := empty_graph |}.

(** Truth value of a field holding [None] or an [int]. *)
Definition truthy (o : option Z) : bool :=
  match o with
  | Some n => negb (n =? 0)
  | None => false
  end.

(** ** State and exceptions

    [ST S A]: a computation that reads and updates a state [S] and either
    raises or returns an [A].  The construction functions run in [M], whose
    state is the counter [NFA.__cni]. *)
Definition ST (S A : Type) : Type := S → exn + (A * S).

Definition ret {S A} (a : A) : ST S A := λ s, inr (a, s).
Definition raise {S A} (e : exn) : ST S A := λ _, inl e.
Definition bind {S A B} (m : ST S A) (k : A → ST S B) : ST S B :=
  λ s, match m s with
       | inl e => inl e
       | inr (a, s') => k a s'
       end.
Definition lift {S A} (r : exn + A) : ST S A :=
  λ s, match r with inl e => inl e | inr a => inr (a, s) end.

Notation "'let*' x := m 'in' k" := (bind m (λ x, k))
  (at level 10, x pattern, m at level 100, k at level 200).

Fixpoint foldM {S A B} (f : B → A → ST S B) (b : B) (l : list A) : ST S B :=
  match l with
  | [] => ret b
  | a :: l' => let* b' := f b a in foldM f b' l'
  end.

Abbreviation M := (ST Z).

(** [NFA.get_node_index()]: [NFA.__cni += 1; return NFA.__cni - 1] *)
Definition get_node_index : M Z := λ cni, inr (cni, cni + 1).

(** The expression [NFA.__cni - 1] *)
Definition cni_minus_1 : M Z := λ cni, inr (cni - 1, cni).

(** ** Fragment algebra *)

Definition concatenate_node (self : NFA) (edge_weight : list Z) : M NFA :=
  if negb (truthy (start_node self)) && negb (truthy (end_node self)) then
    let* s := get_node_index in
    let* e := get_node_index in
    let* g := lift (add_weighted_edges_from
                      [(Some s, Some e, W_repr edge_weight)] (graph self)) in
    ret {| start_node := Some s; end_node := Some e; graph := g |}
  else ret self.

Definition add_nodes_in_range (self : NFA) (start_char end_char : Z) : M NFA :=
  let* s := get_node_index in
  let* e := get_node_index in
  let* g := foldM (λ g char_ord,
      let* gate := get_node_index in
      let* g := lift (add_weighted_edges_from [(Some s, Some gate, W_epsilon)] g) in
      let* last := cni_minus_1 in
      let* inner := get_node_index in
      let* g := lift (add_weighted_edges_from [(Some last, Some inner, W_ord char_ord)] g) in
      let* last := cni_minus_1 in
      lift (add_weighted_edges_from [(Some last, Some e, W_epsilon)] g))
    (graph self) (seqZ start_char (end_char + 1 - start_char)) in
  ret {| start_node := Some s; end_node := Some e; graph := g |}.

Definition from_character_or_range (self : NFA) (regex : list Z) : M NFA :=
  let* self :=
    match regex with
    | [start_char; _; end_char] =>       (* len(regex) == 3 *)
        if bool_decide (ch_minus ∈ regex) then
          if start_char <? end_char
          then add_nodes_in_range self start_char end_char
          else raise (ValueError msg_range)
        else concatenate_node self regex
    | _ => concatenate_node self regex
    end in
  if negb (truthy (end_node self)) then
    let* last := cni_minus_1 in
    ret {| start_node := start_node self; end_node := Some last; graph := graph self |}
  else ret self.

Definition concatenate (self nfa : NFA) : exn + NFA :=
  if truthy (start_node self) && truthy (end_node self) then
    match add_weighted_edges_from
            [(end_node self, start_node nfa, W_epsilon)] (graph self) with
    | inl e => inl e
    | inr g => inr {| start_node := start_node self;
                      end_node := end_node nfa;
                      graph := compose g (graph nfa) |}
    end
  else inr {| start_node := start_node self;
              end_node := end_node self;
              graph := graph nfa |}.

Definition union (self nfa : NFA) : M NFA :=
  let last_start_node := start_node self in
  let last_end_node := end_node self in
  let* s := get_node_index in
  let* e := get_node_index in
  let* g := lift (add_weighted_edges_from [(Some s, last_start_node, W_epsilon)] (graph self)) in
  let* g := lift (add_weighted_edges_from [(Some s, start_node nfa, W_epsilon)] g) in
  let* g := lift (add_weighted_edges_from
                    [(last_end_node, Some e, W_epsilon);
                     (end_node nfa, Some e, W_epsilon)] g) in
  ret {| start_node := Some s; end_node := Some e; graph := compose g (graph nfa) |}.

Definition kleene_closure (self : NFA) : M NFA :=
  let last_start_node := start_node self in
  let last_end_node := end_node self in
  let* g := lift (add_weighted_edges_from
                    [(last_end_node, last_start_node, W_epsilon)] (graph self)) in
  let* s := get_node_index in
  let* e := get_node_index in
  let* g := lift (add_weighted_edges_from
                    [(Some s, last_start_node, W_epsilon);
                     (last_end_node, Some e, W_epsilon);
                     (Some s, Some e, W_epsilon)] g) in
  ret {| start_node := Some s; end_node := Some e; graph := g |}.

Definition plus (self : NFA) : M NFA :=
  let* g := lift (add_weighted_edges_from
                    [(end_node self, start_node self, W_epsilon)] (graph self)) in
  ret {| start_node := start_node self; end_node := end_node self; graph := g |}.

(** [NFA.empty()] *)
Definition empty : M NFA :=
  let* s := get_node_index in
  let* e := get_node_index in
  let* g := lift (add_weighted_edges_from [(Some s, Some e, W_epsilon)] empty_graph) in
  ret {| start_node := Some s; end_node := Some e; graph := g |}.

(** ** NFA utilities *)

Definition get_token_name_from_acceptance_node (self : NFA) (node_index : Z)
    : option string :=
  match node (graph self) !! node_index with
  | Some attrs => attrs !! "acceptance"%string
  | None => None
  end.


(** ** The regex compiler *)

(** Modelled from the spec: the class [Stack] of [src/helpers.py] is not
    among the sources.  It is the LIFO operand / operator stack of the
    shunting-yard scan, top at the head of the list. *)
Definition Stack (A : Type) : Type := list A.

(** Modelled from the spec: [Stack.push], missing with the class. *)
Definition push {A} (x : A) (s : Stack A) : Stack A := x :: s.

(** Modelled from the spec: [Stack.pop], missing with the class.  On the
    empty stack it yields [None], which is what the loop
    [while operator and ...] of [from_regex] relies on to stop. *)
Definition pop {A} (s : Stack A) : option A * Stack A :=
  match s with
  | [] => (None, [])
  | x :: s' => (Some x, s')
  end.

(** Modelled from the spec: [Stack.peek], missing with the class; called
    on a stack that is not empty. *)
Definition peek {A} (s : Stack A) : option A := head s.

(** Modelled from the spec: [Stack.empty], missing with the class. *)
Definition stack_empty {A} (s : Stack A) : bool :=
  match s with [] => true | _ => false end.

(** [GrammarToken] ([src/grammar_token.py]): the fields read by
    [from_tokens]. *)
Record GrammarToken := { name : string; regex : list Z }.

(** [re.compile(r'(.-.|.)+?').findall(regex)]: scanning from the left, a
    match is a three-character [x-y] when there is one, else one
    character; [.] matches any character but a newline, and the lazy [+?]
    stops after one repetition of the group. *)
Fixpoint findall_simple (s : list Z) : list (list Z) :=
  match s with
  | [] => []
  | a :: tl =>
      let single := if bool_decide (a = ch_newline)
                    then findall_simple tl else [a] :: findall_simple tl in
      match tl with
      | m :: b :: rest =>
          if bool_decide (a ≠ ch_newline) && bool_decide (m = ch_minus)
             && bool_decide (b ≠ ch_newline)
          then [a; m; b] :: findall_simple rest
          else single
      | _ => single
      end
  end.

(** [NFA.from_simple_regex]; the result is [None] when nothing matches. *)
Definition from_simple_regex (regex : list Z) : M (option NFA) :=
  match findall_simple regex with
  | m0 :: rest =>
      let* nfa := from_character_or_range NFA_new m0 in
      let* nfa := foldM (λ nfa m,
                     let* other := from_character_or_range NFA_new m in
                     lift (concatenate nfa other)) nfa rest in
      ret (Some nfa)
  | [] => ret None
  end.

(** An operand popped from the stack: [None] when the stack is empty or
    when the operand itself is [None]; calling a method on it raises. *)
Definition pop_operand (operands : Stack (option NFA))
    : M (NFA * Stack (option NFA)) :=
  match pop operands with
  | (Some (Some f), rest) => ret (f, rest)
  | (_, rest) => raise AttributeError
  end.

Definition evaluate_operation (operator : Z) (operands : Stack (option NFA))
    : M (Stack (option NFA)) :=
  if operator =? ch_amp then
    match pop operands with
    | (second_operand, operands1) =>
        match pop operands1 with
        | (Some (Some first_operand), operands2) =>
            match second_operand with
            | Some (Some second) =>
                let* r := lift (concatenate first_operand second) in
                ret (push (Some r) operands2)
            | _ => raise AttributeError
            end
        | _ => raise AttributeError
        end
    end
  else if operator =? ch_pipe then
    match pop operands with
    | (second_operand, operands1) =>
        match pop operands1 with
        | (Some (Some first_operand), operands2) =>
            match second_operand with
            | Some (Some second) =>
                let* r := union first_operand second in
                ret (push (Some r) operands2)
            | _ => raise AttributeError
            end
        | _ => raise AttributeError
        end
    end
  else if operator =? ch_star then
    let* (f, operands1) := pop_operand operands in
    let* r := kleene_closure f in
    ret (push (Some r) operands1)
  else if operator =? ch_plus then
    let* (f, operands1) := pop_operand operands in
    let* r := plus f in
    ret (push (Some r) operands1)
  else ret operands.

(** The bracket scan of [from_regex]: [rest] is [regex[i:]]; the result is
    the value of [i] when [opened_brackets] reaches 0; [regex[i]] past the
    end raises. *)
Fixpoint match_bracket (rest : list Z) (opened_brackets : Z) (i : nat)
    {struct rest} : exn + nat :=
  if opened_brackets =? 0 then inr i else
  match rest with
  | [] => inl IndexError
  | c :: rest' =>
      match_bracket rest'
        (if c =? ch_rparen then opened_brackets - 1
         else if c =? ch_lparen then opened_brackets + 1
         else opened_brackets) (S i)
  end.

(** [regex[a:b]] *)
Definition slice (regex : list Z) (a b : nat) : list Z :=
  take (b - a) (drop a regex).

(** [current_char in '*&|+'] *)
Definition is_operator (c : Z) : bool :=
  (c =? ch_star) || (c =? ch_amp) || (c =? ch_pipe) || (c =? ch_plus).

Section Compiler.

(** The two helpers of [src/helpers.py] that the compiler calls are not
    among the sources: [priority] is the table
    returned by [string_to_priority_hash] for the string of the brackets and
    the four operators, read only at operator characters,
    and [add_concatenation_operator_to_regex] is the preprocessing that
    makes concatenation explicit. *)
Variable priority : Z → Z.
Variable add_concatenation_operator_to_regex : list Z → list Z.

(** The loop [while operator and priority[current_char] <= priority[operator]]
    together with the [operators.pop()] before it and at the end of its
    body: [operators] is the stack before the first [pop]. *)
Fixpoint pop_and_evaluate (current_char : Z) (operators : Stack Z)
    (operands : Stack (option NFA)) : M (Stack (option NFA) * Stack Z) :=
  match operators with
  | [] => ret (operands, [])
  | operator :: operators' =>
      if priority current_char <=? priority operator then
        let* operands := evaluate_operation operator operands in
        pop_and_evaluate current_char operators' operands
      else ret (operands, operators')
  end.

(** The branch of the scan taken at an operator character:
    [operators.peek()] is read when [operators.empty()] is false. *)
Definition scan_operator (current_char : Z) (operands : Stack (option NFA))
    (operators : Stack Z) : M (Stack (option NFA) * Stack Z) :=
  match peek operators with
  | Some top =>
      if priority current_char >=? priority top then
        ret (operands, push current_char operators)
      else
        let* (operands, operators) :=
          pop_and_evaluate current_char operators operands in
        ret (operands, push current_char operators)
  | None => ret (operands, push current_char operators)
  end.

(** [while not operators.empty(): evaluate_operation(operators.pop(), operands)] *)
Fixpoint drain (operators : Stack Z) (operands : Stack (option NFA))
    : M (Stack (option NFA)) :=
  match operators with
  | [] => ret operands
  | operator :: operators' =>
      let* operands := evaluate_operation operator operands in
      drain operators' operands
  end.

(** [return operands.pop()] *)
Definition final_pop (operands : Stack (option NFA)) : option NFA :=
  match pop operands with
  | (Some f, _) => f
  | (None, _) => None
  end.

(** The body of [NFA.from_regex] up to, and without, the final
    [return operands.pop()]: the [while] loop over [i] and the loop that
    evaluates the remaining operators.  The result is the operand stack
    they leave.  One unit of [fuel] per iteration of the [while] loop and
    per recursive call of [from_regex]. *)
Fixpoint from_regex_loop (fuel : nat) (regex : list Z) (i : nat)
    (operands : Stack (option NFA)) (operators : Stack Z)
    : M (Stack (option NFA)) :=
  match fuel with
  | O => raise RecursionError
  | S fuel =>
      match regex !! i with
      | None => drain operators operands
      | Some current_char =>
          if current_char =? ch_lparen then
            match match_bracket (drop (S i) regex) 1 (S i) with
            | inl e => raise e
            | inr after =>
                let current_i := S i in
                let i := (after - 1)%nat in
                let* sub := from_regex_loop fuel (slice regex current_i i) 0 [] [] in
                from_regex_loop fuel regex (S i)
                  (push (final_pop sub) operands) operators
            end
          else
          match (if current_char =? ch_backslash then regex !! S i else None) with
          | Some next =>
              let* f := if next =? ch_L then
                          let* e := empty in ret (Some e)
                        else from_simple_regex [next] in
              from_regex_loop fuel regex (S (S i)) (push f operands) operators
          | None =>
              if negb (is_operator current_char) then
                match regex !! S i, regex !! S (S i) with
                | Some m, Some _ =>
                    if m =? ch_minus then
                      let* f := from_simple_regex (slice regex i (i + 3)) in
                      from_regex_loop fuel regex (i + 3)%nat (push f operands) operators
                    else
                      let* f := from_simple_regex [current_char] in
                      from_regex_loop fuel regex (S i) (push f operands) operators
                | _, _ =>
                    let* f := from_simple_regex [current_char] in
                    from_regex_loop fuel regex (S i) (push f operands) operators
                end
              else
                let* (operands, operators) :=
                  scan_operator current_char operands operators in
                from_regex_loop fuel regex (S i) operands operators
          end
      end
  end.

(** The operand stack of [from_regex(regex)] when its scan has ended and
    its operator stack has been emptied. *)
Definition from_regex_operands (regex : list Z) : M (Stack (option NFA)) :=
  from_regex_loop (S (length regex)) regex 0 [] [].

(** [NFA.from_regex] *)
Definition from_regex (regex : list Z) : M (option NFA) :=
  let* operands := from_regex_operands regex in
  ret (final_pop operands).

(** [nfa.graph.node[nfa.end_node]['acceptance'] = name] *)
Definition tag_acceptance (nfa : option NFA) (token_name : string) : exn + NFA :=
  match nfa with
  | None => inl AttributeError
  | Some f =>
      match end_node f with
      | None => inl KeyError
      | Some e =>
          match node (graph f) !! e with
          | None => inl KeyError
          | Some attrs =>
              inr {| start_node := start_node f;
                     end_node := end_node f;
                     graph := {| node := <[e := <["acceptance"%string := token_name]> attrs]>
                                           (node (graph f));
                                 adj := adj (graph f) |} |}
          end
      end
  end.

(** The two statements compiling and tagging one token. *)
Definition compile_token (token : GrammarToken) : M NFA :=
  let* token_nfa := from_regex (add_concatenation_operator_to_regex (regex token)) in
  lift (tag_acceptance token_nfa (name token)).

Definition from_tokens (tokens : list GrammarToken) : M NFA :=
  match tokens with
  | first :: rest =>
      let* first_token_nfa := compile_token first in
      foldM (λ nfa token,
               let* token_nfa := compile_token token in
               union nfa token_nfa) first_token_nfa rest
  | [] => raise (ValueError msg_empty_tokens)
  end.

End Compiler.

(** ** Traversal: epsilon closure and move ([src/fa.py])

    [memo] is the dictionary of [__memoize_epsilon], shared by every
    automaton and keyed by the node alone.  [heap] holds the Python [set]
    objects that are passed to [move] and [get_epsilon_closures] by
    reference and updated in place. *)
Definition loc := positive.

Record tstate := {
  memo : gmap Z (gset Z);
  heap : gmap loc (gset Z)
}.

Abbreviation T := (ST tstate).

(** An argument that is either one node or a [set] object. *)
Inductive pyarg :=
| PyNode (n : Z)
| PySet (l : loc).

(** An input that is either one symbol or a [set] of symbols. *)
Inductive pyinput :=
| InSymbol (c : Z)
| InSet (s : gset Z).

Definition deref (st : tstate) (l : loc) : gset Z := default ∅ (heap st !! l).

Definition read (l : loc) : T (gset Z) := λ st, inr (deref st l, st).

(** A set display [{x}] creates a new object. *)
Definition alloc (s : gset Z) : T loc :=
  λ st, let l := fresh (dom (heap st)) in
        inr (l, {| memo := memo st; heap := <[l := s]> (heap st) |}).

(** [target.update(other)] *)
Definition set_update (l : loc) (other : gset Z) : T unit :=
  λ st, inr (tt, {| memo := memo st; heap := <[l := deref st l ∪ other]> (heap st) |}).

(** [{x} if not isinstance(x, set) else x] *)
Definition as_set (x : pyarg) : T loc :=
  match x with
  | PySet l => ret l
  | PyNode n => alloc {[n]}
  end.

(** The loop over [graph.neighbors(node)] in [__epsilon_closure]. *)
Fixpoint add_epsilon_neighbors (G : MultiDiGraph) (n : Z) (node_neighbors : list Z)
    (epsilon_closure : gset Z) : exn + gset Z :=
  match node_neighbors with
  | [] => inr epsilon_closure
  | neighbor :: rest =>
      match get_edge_data_0 G n neighbor with
      | inl e => inl e
      | inr w =>
          add_epsilon_neighbors G n rest
            (if decide (w = W_epsilon) then epsilon_closure ∪ {[neighbor]}
             else epsilon_closure)
      end
  end.

(** The body of [__epsilon_closure], without the memoisation. *)
Definition epsilon_closure_body (fa : NFA) (n : Z) : exn + gset Z :=
  match neighbors (graph fa) n with
  | inl e => inl e
  | inr node_neighbors => add_epsilon_neighbors (graph fa) n node_neighbors {[n]}
  end.

(** [__epsilon_closure] as decorated by [__memoize_epsilon]. *)
Definition epsilon_closure (fa : NFA) (x : Z) : T (gset Z) :=
  λ st, match memo st !! x with
        | Some s => inr (s, st)
        | None =>
            match epsilon_closure_body fa x with
            | inl e => inl e
            | inr s => inr (s, {| memo := <[x := s]> (memo st); heap := heap st |})
            end
        end.

(** The body of the loop [for node in nodes] of [get_epsilon_closures],
    with its inner loop over [__epsilon_closure(node)]: [nodes] is the
    value of the set, which the loops do not change. *)
Definition closure_pass_body (fa : NFA) (nodes : gset Z)
    (epsilon_closures : gset Z) (n : Z) : T (gset Z) :=
  let* c := epsilon_closure fa n in
  ret (epsilon_closures ∪ filter (λ epsilon_node, epsilon_node ∉ nodes) c).

(** The two nested [for] loops of [get_epsilon_closures]. *)
Definition new_epsilon_nodes (fa : NFA) (nodes : gset Z) : T (gset Z) :=
  foldM (closure_pass_body fa nodes) ∅ (elements nodes).

(** [get_epsilon_closures], one unit of [fuel] per call. *)
Fixpoint get_epsilon_closures_fuel (fuel : nat) (fa : NFA) (nodes : pyarg) : T loc :=
  match fuel with
  | O => raise RecursionError
  | S fuel =>
      let* l := as_set nodes in
      let* cur := read l in
      let* epsilon_closures := new_epsilon_nodes fa cur in
      if decide (epsilon_closures = ∅) then ret l
      else
        let* _ := set_update l epsilon_closures in
        get_epsilon_closures_fuel fuel fa (PySet l)
  end.

(** Every node that a call can ever add to the set: the nodes and the edge
    targets of the graph and the nodes of the memoised closures.  Each call
    but the last adds a node, which bounds the depth of the recursion. *)
Definition memo_range (m : gmap Z (gset Z)) : gset Z :=
  ⋃ (map_to_list m).*2.

Definition adj_targets (G : MultiDiGraph) : gset Z :=
  list_to_set ((map_to_list (adj G)).*1.*2).

Definition arg_value (x : pyarg) (st : tstate) : gset Z :=
  match x with
  | PyNode n => {[n]}
  | PySet l => deref st l
  end.

Definition closure_universe (fa : NFA) (m : gmap Z (gset Z)) (cur : gset Z) : gset Z :=
  dom (node (graph fa)) ∪ adj_targets (graph fa) ∪ memo_range m ∪ cur.

Definition closure_fuel (fa : NFA) (nodes : pyarg) (st : tstate) : nat :=
  S (size (closure_universe fa (memo st) (arg_value nodes st))).

Definition get_epsilon_closures (fa : NFA) (nodes : pyarg) : T loc :=
  λ st, get_epsilon_closures_fuel (closure_fuel fa nodes st) fa nodes st.

(** The normalisation of a stored weight in [move]: the string
    [FA.epsilon] is kept; any other string is passed to [eval], and
    [eval(repr(s))] is [s]; an [int] makes [eval] raise [TypeError] and is
    passed to [chr], which raises [ValueError] outside the code points and
    [OverflowError] outside a C [int].  The result is [str(weight)]. *)
Definition chr (n : Z) : exn + list Z :=
  if (0 <=? n) && (n <? 1114112) then inr [n]
  else if (-2147483648 <=? n) && (n <=? 2147483647) then inl (ValueError msg_chr)
  else inl OverflowError.

Definition normalise_weight (w : weight) : exn + list Z :=
  match w with
  | W_epsilon => inr [epsilon]
  | W_repr s => inr s
  | W_ord n => chr n
  end.

(** [str(weight) == str(input)] for an input symbol. *)
Definition weight_matches (w : list Z) (input : Z) : bool :=
  bool_decide (w = [input]).

Definition input_set (input : pyinput) : gset Z :=
  match input with
  | InSymbol c => {[c]}
  | InSet s => s
  end.

(** The loop over the out-edges of one node in [move]. *)
Definition move_edges (inputs : gset Z) (edges : list (Z * weight))
    (destination : gset Z) : T (gset Z) :=
  foldM (λ destination edge,
           let* w := lift (normalise_weight edge.2) in
           ret (foldr (λ input destination,
                         if weight_matches w input
                         then destination ∪ {[edge.1]} else destination)
                      destination (elements inputs)))
        destination edges.

(** The body of the loop [for node in nodes] of [move]. *)
Definition move_node (fa : NFA) (inputs : gset Z) (destination : gset Z) (n : Z)
    : T (gset Z) :=
  let* edges := lift (edges_iter (graph fa) n) in
  move_edges inputs edges destination.

(** [FA.move] *)
Definition move (fa : NFA) (source : pyarg) (input : pyinput) : T (gset Z) :=
  let* nodes := as_set source in
  let* closures := get_epsilon_closures fa (PySet nodes) in
  let* closures_value := read closures in
  let* _ := set_update nodes closures_value in
  let inputs := input_set input in
  let* nodes_value := read nodes in
  foldM (move_node fa inputs) ∅ (elements nodes_value).

(** ** Exceptions a computation may raise *)

Definition raises_only {S A} (P : exn → Prop) (m : ST S A) : Prop :=
  ∀ s e, m s = inl e → P e.

(** The exceptions raised while one regex is compiled. *)
Inductive compile_exn : exn → Prop :=
| compile_exn_index : compile_exn IndexError
| compile_exn_attribute : compile_exn AttributeError
| compile_exn_range : compile_exn (ValueError msg_range)
| compile_exn_none_node : compile_exn (ValueError msg_none_node).

(** ** Instances of the two helpers that are not among the sources *)

(** Modelled from the spec: [string_to_priority_hash] of [src/helpers.py]
    is not among the sources.  The spec gives the order of the operators:
    union lowest, then concatenation, the postfix star and plus highest. *)
Definition spec_priority (c : Z) : Z :=
  if c =? ch_pipe then 1
  else if c =? ch_amp then 2
  else if (c =? ch_star) || (c =? ch_plus) then 3
  else 0.

(** Modelled from the spec: a character after which an operand may have
    ended, for [spec_add_concatenation]. *)
Definition ends_operand (c : Z) : bool :=
  negb ((c =? ch_lparen) || (c =? ch_pipe) || (c =? ch_amp)
        || (c =? ch_minus) || (c =? ch_backslash)).

(** Modelled from the spec: a character with which an operand may start,
    for [spec_add_concatenation]. *)
Definition starts_operand (c : Z) : bool :=
  negb ((c =? ch_rparen) || (c =? ch_pipe) || (c =? ch_amp)
        || (c =? ch_star) || (c =? ch_plus) || (c =? ch_minus)).

(** Modelled from the spec: [add_concatenation_operator_to_regex] of
    [src/helpers.py] is not among the sources.  The spec says that implicit
    concatenation is inserted as an explicit operator during preprocessing:
    an [&] goes between a character that can end an operand and a character
    that can start one. *)
Fixpoint spec_add_concatenation (regex : list Z) : list Z :=
  match regex with
  | [] => []
  | a :: tl =>
      match tl with
      | b :: _ =>
          if ends_operand a && starts_operand b
          then a :: ch_amp :: spec_add_concatenation tl
          else a :: spec_add_concatenation tl
      | [] => [a]
      end
  end.

(** The token set of [src/main.py]. *)
Definition bibo : GrammarToken := {| name := "bibo"; regex := py_str "(0|1)*0" |}.

(** The exceptions raised while one token is compiled and tagged. *)
Definition token_exn (e : exn) : Prop := compile_exn e ∨ e = KeyError.

(** ** Notions used to state the properties of the labels *)

(** The test that [move] makes of one stored weight against one input
    symbol: the weight is normalised, then compared as a string. *)
Definition label_matches (w : weight) (input : Z) : exn + bool :=
  match normalise_weight w with
  | inl e => inl e
  | inr s => inr (weight_matches s input)
  end.

(** A code point that [chr] accepts. *)
Definition valid_char (c : Z) : Prop := 0 ≤ c < 1114112.

(** The state of a fresh process: nothing memoised, no set allocated. *)
Definition initial_tstate : tstate := {| memo := ∅; heap := ∅ |}.

(** The fragment of one literal character, between the nodes [s] and [e]. *)
Definition literal_fragment (s e : Z) (c : Z) : NFA :=
  {| start_node := Some s; end_node := Some e;
     graph := add_edge s e (W_repr [c]) empty_graph |}.

(** An automaton with the single transition [1 --epsilon--> 2]. *)
Definition epsilon_edge_fragment : NFA :=
  {| start_node := Some 1; end_node := Some 2;
     graph := add_edge 1 2 W_epsilon empty_graph |}.

(** ** Notions used to state the properties of the traversal *)

(** [m'] is [m] with more memoised closures, each the result of the body
    of [__epsilon_closure] on this automaton. *)
Definition memo_ext (fa : NFA) (m m' : gmap Z (gset Z)) : Prop :=
  m ⊆ m' ∧
  ∀ n s, m' !! n = Some s →
         m !! n = Some s ∨ (m !! n = None ∧ epsilon_closure_body fa n = inr s).

(** Every memoised closure is the one that this automaton gives. *)
Definition memo_sound (fa : NFA) (m : gmap Z (gset Z)) : Prop :=
  ∀ n s, m !! n = Some s → epsilon_closure_body fa n = inr s.

(** [v] is in the one-step closure of [u]: [u] itself or a successor whose
    edge of key 0 is an epsilon edge. *)
Definition eps_succ (fa : NFA) (u v : Z) : Prop :=
  ∃ s, epsilon_closure_body fa u = inr s ∧ v ∈ s.

(** The epsilon closure of a set of nodes. *)
Definition eps_closure_of (fa : NFA) (S : gset Z) (v : Z) : Prop :=
  ∃ u, u ∈ S ∧ rtc (eps_succ fa) u v.

(** Every edge joins two nodes of the graph and every key dictionary has
    an edge, as in any graph built by adding edges. *)
Definition graph_wf (G : MultiDiGraph) : Prop :=
  ∀ u v ws, adj G !! (u, v) = Some ws →
            ws ≠ [] ∧ u ∈ dom (node G) ∧ v ∈ dom (node G).

(** One step along a memoised closure. *)
Definition memo_succ (m : gmap Z (gset Z)) (u v : Z) : Prop :=
  ∃ s, m !! u = Some s ∧ v ∈ s.

(** There is a transition from [n] to [d] whose stored label matches the
    input symbol [x], as [move] tests it. *)
Definition transition (fa : NFA) (n d x : Z) : Prop :=
  ∃ ws w, adj (graph fa) !! (n, d) = Some ws ∧ w ∈ ws
          ∧ label_matches w x = inr true.

(** Every integer label is the ordinal of a character. *)
Definition labels_valid (G : MultiDiGraph) : Prop :=
  ∀ k ws n, adj G !! k = Some ws → W_ord n ∈ ws → valid_char n.

(** A state in which the caller holds the set [{1}] at location 1. *)
Definition one_set_tstate : tstate :=
  {| memo := ∅; heap := {[ 1%positive := {[ 1 ]} ]} |}.

(** The automaton of the regex [a&b]: [1 --a--> 2 --epsilon--> 3 --b--> 4]. *)
Definition ab_fragment : NFA :=
  {| start_node := Some 1; end_node := Some 4;
     graph := compose (add_edge 2 3 W_epsilon (graph (literal_fragment 1 2 97)))
                      (graph (literal_fragment 3 4 98)) |}.

(** ** Notions used to state the properties of the range fragment *)

(** One iteration of the loop of [add_nodes_in_range]: the three edges of
    the branch of [char_ord], through the nodes [gate] and [gate + 1]. *)
Definition range_edges (s e gate char_ord : Z) (G : MultiDiGraph) : MultiDiGraph :=
  add_edge (gate + 1) e W_epsilon
    (add_edge gate (gate + 1) (W_ord char_ord)
       (add_edge s gate W_epsilon G)).

Fixpoint range_loop (s e : Z) (ks : list Z) (gate : Z) (G : MultiDiGraph)
    : MultiDiGraph :=
  match ks with
  | [] => G
  | k :: ks' => range_loop s e ks' (gate + 2) (range_edges s e gate k G)
  end.

(** [(u, v)] with the key dictionary [ws] is one of the three edges
    [s --epsilon--> gate --k--> gate + 1 --epsilon--> e]. *)
Definition range_branch (s e gate k : Z) (u v : Z) (ws : list weight) : Prop :=
  (u = s ∧ v = gate ∧ ws = [W_epsilon]) ∨
  (u = gate ∧ v = gate + 1 ∧ ws = [W_ord k]) ∨
  (u = gate + 1 ∧ v = e ∧ ws = [W_epsilon]).

(** Every edge of the graph joins nodes below [bound]. *)
Definition adj_below (G : MultiDiGraph) (bound : Z) : Prop :=
  ∀ u v, is_Some (adj G !! (u, v)) → u < bound ∧ v < bound.

(** The automaton accepts the one-symbol string [x]: from the closure of
    its start state a transition on [x] leads to a state whose closure
    holds its end state. *)
Definition accepts_symbol (fa : NFA) (x : Z) : Prop :=
  ∃ s e n d, start_node fa = Some s ∧ end_node fa = Some e ∧
             eps_closure_of fa {[s]} n ∧ transition fa n d x ∧
             eps_closure_of fa {[d]} e.

(** The automaton accepts the empty string. *)
Definition accepts_empty (fa : NFA) : Prop :=
  ∃ s e, start_node fa = Some s ∧ end_node fa = Some e ∧ eps_closure_of fa {[s]} e.

(** The fragment that [from_character_or_range] builds on [NFA()] for the
    range from [a] to [b] when the counter is [cni]. *)
Definition range_fragment (cni a b : Z) : NFA :=
  {| start_node := Some cni; end_node := Some (cni + 1);
     graph := range_loop cni (cni + 1) (seqZ a (b + 1 - a)) (cni + 2) empty_graph |}.

(** The first of the two nodes private to the branch of [k]. *)
Definition range_gate (cni a k : Z) : Z := cni + 2 + 2 * (k - a).

(** ** Notions used to state the properties of the compiled fragments *)

(** Every node of the graph was allocated when the counter was in
    [lo .. hi - 1]. *)
Definition nodes_in (lo hi : Z) (G : MultiDiGraph) : Prop :=
  ∀ n, n ∈ dom (node G) → lo ≤ n < hi.

(** A fragment built while the counter went from [lo] to [hi]: it has a
    start and an end, its end is a node of its graph, and all its nodes
    were allocated in between. *)
Definition frag_ok (lo hi : Z) (f : NFA) : Prop :=
  ∃ s e, start_node f = Some s ∧ end_node f = Some e ∧
         lo ≤ s < hi ∧ lo ≤ e < hi ∧
         e ∈ dom (node (graph f)) ∧ nodes_in lo hi (graph f).

(** The operand stack holds only such fragments (and [None]s). *)
Definition operands_ok (lo hi : Z) (operands : Stack (option NFA)) : Prop :=
  ∀ f, Some f ∈ operands → frag_ok lo hi f.

(** [from_tokens] with a log: next to the automaton, the end state that
    the fragment of each token had when it was tagged, in the order of the
    tokens. *)
Definition from_tokens_log (priority : Z → Z)
    (add_concatenation_operator_to_regex : list Z → list Z)
    (tokens : list GrammarToken) : M (NFA * list (option Z)) :=
  match tokens with
  | first :: rest =>
      let* first_token_nfa :=
        compile_token priority add_concatenation_operator_to_regex first in
      foldM (λ acc token,
               let* token_nfa :=
                 compile_token priority add_concatenation_operator_to_regex token in
               let* nfa := union acc.1 token_nfa in
               ret (nfa, acc.2 ++ [end_node token_nfa]))
            (first_token_nfa, [end_node first_token_nfa]) rest
  | [] => raise (ValueError msg_empty_tokens)
  end.

(** The end state [oe] logged for [token] is a node allocated in
    [lo .. cni - 1] that carries the name of the token in [nfa]. *)
Definition labelled (lo : Z) (nfa : NFA) (cni : Z) (token : GrammarToken)
    (oe : option Z) : Prop :=
  ∃ e, oe = Some e ∧ lo ≤ e < cni ∧
       get_token_name_from_acceptance_node nfa e = Some (name token).

(** A second token, for a digit. *)
Definition digit : GrammarToken := {| name := "digit"; regex := py_str "0-9" |}.


(** ** Notions used to state which inputs an automaton accepts *)

(** Modelled from the spec: the determinizer of [src/dfa.py], which runs
    an automaton over an input, is not among the sources.  The spec steps
    [move] and then the closure over each symbol of the input, from the
    closed start state: [step_input] is one such step on the set at [l],
    the result of [move] being a new set. *)
Definition step_input (fa : NFA) (l : loc) (x : Z) : T loc :=
  let* destination := move fa (PySet l) (InSymbol x) in
  let* l' := alloc destination in
  get_epsilon_closures fa (PySet l').

(** Modelled from the spec: the run of the automaton from the state [s]
    over the input [xs], missing with [src/dfa.py]; the result is the set
    of states that the steps end in. *)
Definition run_input (fa : NFA) (s : Z) (xs : list Z) : T (gset Z) :=
  let* l := get_epsilon_closures fa (PyNode s) in
  let* l := foldM (step_input fa) l xs in
  read l.

(** From [u] the input [xs] leads to [v]: epsilon steps, then for each
    symbol a transition that matches it as [move] tests it, followed by
    epsilon steps. *)
Inductive reach (fa : NFA) : Z → list Z → Z → Prop :=
| reach_nil u v : rtc (eps_succ fa) u v → reach fa u [] v
| reach_cons u n d x xs v :
    rtc (eps_succ fa) u n → transition fa n d x → reach fa d xs v →
    reach fa u (x :: xs) v.

(** The automaton accepts the input [xs]: it leads from its start state
    to its end state. *)
Definition accepts_input (fa : NFA) (xs : list Z) : Prop :=
  ∃ s e, start_node fa = Some s ∧ end_node fa = Some e ∧ reach fa s xs e.

(** ** The other utilities of the two classes *)


(** [FA.state_exists]; [states] is the field [self.states].  The state
    objects come from the determinizer, of which the function reads the
    attributes [NFAStates] and [index] only: the type of the objects and
    the attributes are variables here, the attribute [NFAStates] being of a
    type with a decidable [==]. *)
Section StateExists.
Context {State NFAStatesT Index : Type} `{EqDecision NFAStatesT}.
Variable NFAStates : State → NFAStatesT.
Variable index : State → Index.


End StateExists.

(** ** Notions used to state which inputs the combined fragments accept *)

(** [G'] has the nodes of [G] and, between any two nodes, the edges of [G]
    under the same keys, possibly followed by more. *)
Definition graph_ext (G G' : MultiDiGraph) : Prop :=
  dom (node G) ⊆ dom (node G') ∧
  ∀ k ws, adj G !! k = Some ws → ∃ ws', adj G' !! k = Some (ws ++ ws').







(** ** Notions used to state that the traversal of a compiled fragment
       does not fail *)



(** * Properties *)

(** ** The monad *)

Section MonadFacts.
Context {S : Type}.
Implicit Types P : exn → Prop.

Lemma bind_inr {A B} (m : ST S A) (k : A → ST S B) s b s' :
  bind m k s = inr (b, s') ↔ ∃ a s1, m s = inr (a, s1) ∧ k a s1 = inr (b, s').
Proof.
  unfold bind. destruct (m s) as [e|[a s1]]; split.
  - discriminate.
  - intros (a & s1 & ? & _). discriminate.
  - eauto.
  - intros (a' & s1' & [= -> ->] & ?). done.
Qed.

Lemma bind_inl {A B} (m : ST S A) (k : A → ST S B) s e :
  bind m k s = inl e ↔
  m s = inl e ∨ ∃ a s1, m s = inr (a, s1) ∧ k a s1 = inl e.
Proof.
  unfold bind. destruct (m s) as [e'|[a s1]]; split.
  - intros [= ->]. by left.
  - intros [[= ->]|(a & s1 & ? & _)]; [done | discriminate].
  - intros ?. right. eauto.
  - intros [?|(a' & s1' & [= -> ->] & ?)]; [discriminate | done].
Qed.

Lemma lift_inr {A} (r : exn + A) (s : S) a s' :
  lift r s = inr (a, s') ↔ r = inr a ∧ s' = s.
Proof.
  unfold lift. destruct r; split; try discriminate.
  - intros [? _]. discriminate.
  - intros [= -> ->]. done.
  - intros [[= ->] ->]. done.
Qed.

Lemma ret_inr {A} (a b : A) (s s' : S) :
  ret a s = inr (b, s') ↔ a = b ∧ s = s'.
Proof. unfold ret. split; [intros [= -> ->] | intros [-> ->]]; done. Qed.

Lemma raises_only_ret {A} P (a : A) : raises_only (S:=S) P (ret a).
Proof. intros s e. discriminate. Qed.

Lemma raises_only_raise {A} P e : P e → raises_only (S:=S) (A:=A) P (raise e).
Proof. intros He s e' [= <-]. done. Qed.

Lemma raises_only_bind {A B} P (m : ST S A) (k : A → ST S B) :
  raises_only P m → (∀ a, raises_only P (k a)) → raises_only P (bind m k).
Proof.
  intros Hm Hk s e. rewrite bind_inl. intros [H|(a & s1 & _ & H)].
  - by eapply Hm.
  - by eapply Hk.
Qed.

Lemma raises_only_lift {A} P (r : exn + A) :
  (∀ e, r = inl e → P e) → raises_only (S:=S) P (lift r).
Proof. intros Hr s e. unfold lift. destruct r; [|done]. intros [= <-]. auto. Qed.

Lemma raises_only_foldM {A B} P (f : B → A → ST S B) l :
  (∀ b a, raises_only P (f b a)) → ∀ b, raises_only P (foldM f b l).
Proof.
  intros Hf. induction l as [|a l IH]; intros b; simpl.
  - apply raises_only_ret.
  - apply raises_only_bind; auto.
Qed.

End MonadFacts.

(** ** Exceptions of the construction functions *)

Create HintDb raises.

Ltac raises_step :=
  match goal with
  | |- raises_only _ (ret _) => apply raises_only_ret
  | |- raises_only _ (raise _) => apply raises_only_raise; try constructor
  | |- raises_only _ (bind _ _) => apply raises_only_bind; [|intros ?]
  | |- raises_only _ (foldM _ _ _) => apply raises_only_foldM; intros ? ?
  | |- raises_only _ (if ?b then _ else _) => destruct b
  | |- raises_only _ (match ?x with _ => _ end) => destruct x
  | |- raises_only _ (let (_, _) := ?x in _) => destruct x
  end.

Lemma add_weighted_edges_from_inl ebunch G e :
  add_weighted_edges_from ebunch G = inl e → e = ValueError msg_none_node.
Proof.
  revert G. induction ebunch as [|[[u v] w] rest IH]; intros G; simpl.
  - discriminate.
  - destruct u, v; eauto; intros [= <-]; done.
Qed.

Lemma raises_only_add_edges (S : Type) ebunch G :
  raises_only (S:=S) compile_exn (lift (add_weighted_edges_from ebunch G)).
Proof.
  apply raises_only_lift. intros e ->%add_weighted_edges_from_inl. constructor.
Qed.

Lemma raises_only_get_node_index P : raises_only P get_node_index.
Proof. intros s e. discriminate. Qed.

Lemma raises_only_cni_minus_1 P : raises_only P cni_minus_1.
Proof. intros s e. discriminate. Qed.

#[local] Hint Resolve raises_only_add_edges raises_only_get_node_index
  raises_only_cni_minus_1 : raises.

Ltac raises_tac := repeat (first [ solve [auto with raises] | raises_step ]).

Lemma raises_only_concatenate_node self w :
  raises_only compile_exn (concatenate_node self w).
Proof. unfold concatenate_node. raises_tac. Qed.

Lemma raises_only_add_nodes_in_range self a b :
  raises_only compile_exn (add_nodes_in_range self a b).
Proof. unfold add_nodes_in_range. raises_tac. Qed.

#[local] Hint Resolve raises_only_concatenate_node
  raises_only_add_nodes_in_range : raises.

Lemma raises_only_from_character_or_range self regex :
  raises_only compile_exn (from_character_or_range self regex).
Proof. unfold from_character_or_range. raises_tac. Qed.

Lemma concatenate_inl self nfa e :
  concatenate self nfa = inl e → e = ValueError msg_none_node.
Proof.
  unfold concatenate. destruct (_ && _); [|discriminate].
  destruct (add_weighted_edges_from _ _) eqn:E; [|discriminate].
  intros [= <-]. by eapply add_weighted_edges_from_inl.
Qed.

Lemma raises_only_concatenate (S : Type) self nfa :
  raises_only (S:=S) compile_exn (lift (concatenate self nfa)).
Proof. apply raises_only_lift. intros e ->%concatenate_inl. constructor. Qed.

Lemma raises_only_union self nfa : raises_only compile_exn (union self nfa).
Proof. unfold union. raises_tac. Qed.

Lemma raises_only_kleene_closure self : raises_only compile_exn (kleene_closure self).
Proof. unfold kleene_closure. raises_tac. Qed.

Lemma raises_only_plus self : raises_only compile_exn (plus self).
Proof. unfold plus. raises_tac. Qed.

Lemma raises_only_empty : raises_only compile_exn empty.
Proof. unfold empty. raises_tac. Qed.

#[local] Hint Resolve raises_only_from_character_or_range raises_only_concatenate
  raises_only_union raises_only_kleene_closure raises_only_plus
  raises_only_empty : raises.

Lemma raises_only_from_simple_regex regex :
  raises_only compile_exn (from_simple_regex regex).
Proof. unfold from_simple_regex. raises_tac. Qed.

Lemma raises_only_pop_operand operands :
  raises_only compile_exn (pop_operand operands).
Proof. unfold pop_operand. raises_tac. Qed.

#[local] Hint Resolve raises_only_from_simple_regex raises_only_pop_operand : raises.

Lemma raises_only_evaluate_operation operator operands :
  raises_only compile_exn (evaluate_operation operator operands).
Proof. unfold evaluate_operation. raises_tac. Qed.

#[local] Hint Resolve raises_only_evaluate_operation : raises.

Section CompilerFacts.
Variable priority : Z → Z.
Variable add_concatenation_operator_to_regex : list Z → list Z.

Lemma raises_only_pop_and_evaluate c operators operands :
  raises_only compile_exn (pop_and_evaluate priority c operators operands).
Proof.
  revert operands. induction operators as [|o os IH]; intros operands; simpl;
    raises_tac.
Qed.

Lemma raises_only_drain operators operands :
  raises_only compile_exn (drain operators operands).
Proof.
  revert operands. induction operators as [|o os IH]; intros operands; simpl;
    raises_tac.
Qed.

#[local] Hint Resolve raises_only_pop_and_evaluate raises_only_drain : raises.

Lemma raises_only_scan_operator c operands operators :
  raises_only compile_exn (scan_operator priority c operands operators).
Proof. unfold scan_operator. raises_tac. Qed.

#[local] Hint Resolve raises_only_scan_operator : raises.

(** The bracket scan consumes at least the closing bracket and stops inside
    the string. *)
Lemma match_bracket_bounds rest opened i after :
  opened ≠ 0 →
  match_bracket rest opened i = inr after →
  (i < after ≤ i + length rest)%nat.
Proof.
  revert opened i. induction rest as [|c rest IH]; intros opened i Ho; simpl.
  - destruct (Z.eqb_spec opened 0); [done | discriminate].
  - destruct (Z.eqb_spec opened 0); [done|].
    set (o' := if c =? ch_rparen then _ else _).
    destruct (decide (o' = 0)) as [->|Hne].
    + destruct rest; simpl; intros [= <-]; lia.
    + intros H%IH; [lia | done].
Qed.

Lemma match_bracket_inl rest opened i e :
  match_bracket rest opened i = inl e → e = IndexError.
Proof.
  revert opened i. induction rest as [|c rest IH]; intros opened i; simpl;
    destruct (opened =? 0); try discriminate; [congruence | eauto].
Qed.

Lemma length_slice regex a b : (length (slice regex a b) ≤ b - a)%nat.
Proof. unfold slice. rewrite length_take. lia. Qed.

(** With [length regex - i < fuel] the loop never runs out of fuel, and it
    raises nothing but the exceptions of [compile_exn]. *)
Lemma raises_only_from_regex_loop fuel : ∀ regex i operands operators,
  (length regex - i < fuel)%nat →
  raises_only compile_exn (from_regex_loop priority fuel regex i operands operators).
Proof.
  induction fuel as [|fuel IH]; intros regex i operands operators Hfuel; [lia|].
  simpl. destruct (regex !! i) as [c|] eqn:Hi; [|raises_tac].
  apply lookup_lt_Some in Hi.
  destruct (c =? ch_lparen).
  { destruct (match_bracket _ _ _) as [e|after] eqn:Hb.
    - apply match_bracket_inl in Hb as ->. raises_tac.
    - apply match_bracket_bounds in Hb; [|done]. rewrite length_drop in Hb.
      apply raises_only_bind; [|intros sub].
      + apply IH. pose proof (length_slice regex (S i) (after - 1)). lia.
      + apply IH. lia. }
  destruct (if c =? ch_backslash then _ else _) as [next|].
  { apply raises_only_bind; [|intros f; apply IH; lia].
    destruct (next =? ch_L); raises_tac. }
  destruct (negb (is_operator c)).
  - destruct (regex !! S i) as [m|]; [destruct (regex !! S (S i)) as [x|]|];
      [destruct (m =? ch_minus)|..];
      (apply raises_only_bind; [raises_tac | intros f; apply IH; lia]).
  - apply raises_only_bind; [raises_tac | intros [ops ors]; apply IH; lia].
Qed.

Lemma raises_only_from_regex_operands regex :
  raises_only compile_exn (from_regex_operands priority regex).
Proof. apply raises_only_from_regex_loop. lia. Qed.

Lemma raises_only_from_regex regex :
  raises_only compile_exn (from_regex priority regex).
Proof.
  unfold from_regex. apply raises_only_bind; [|intros; apply raises_only_ret].
  apply raises_only_from_regex_operands.
Qed.

End CompilerFacts.

(** ** The multi-token entry point and the empty token list *)

Lemma raises_only_weaken {S A} (P Q : exn → Prop) (m : ST S A) :
  (∀ e, P e → Q e) → raises_only P m → raises_only Q m.
Proof. intros HPQ Hm s e H. eauto. Qed.

Lemma tag_acceptance_inl nfa token_name e :
  tag_acceptance nfa token_name = inl e → e = AttributeError ∨ e = KeyError.
Proof.
  unfold tag_acceptance. destruct nfa as [f|]; [|intros [= <-]; auto].
  destruct (end_node f) as [n|]; [|intros [= <-]; auto].
  destruct (node (graph f) !! n); [discriminate | intros [= <-]; auto].
Qed.

Lemma raises_only_compile_token priority addc token :
  raises_only token_exn (compile_token priority addc token).
Proof.
  unfold compile_token. apply raises_only_bind.
  - eapply raises_only_weaken; [|apply raises_only_from_regex]. by left.
  - intros f. apply raises_only_lift. intros e [->| ->]%tag_acceptance_inl.
    + left. constructor.
    + by right.
Qed.

Lemma raises_only_from_tokens_cons priority addc first rest :
  raises_only token_exn (from_tokens priority addc (first :: rest)).
Proof.
  simpl. apply raises_only_bind; [apply raises_only_compile_token|].
  intros f. apply raises_only_foldM. intros nfa token.
  apply raises_only_bind; [apply raises_only_compile_token|].
  intros g. eapply raises_only_weaken; [|apply raises_only_union]. by left.
Qed.

Lemma token_exn_not_empty_tokens : ¬ token_exn (ValueError msg_empty_tokens).
Proof. intros [H|H]; [inversion H | discriminate]. Qed.

(** C9. Called with an empty token list, [from_tokens] raises the
    [ValueError] of the empty token list and returns no automaton; called
    with a non-empty token list it does not raise this error, whatever the
    counter, the priority table and the preprocessing are. *)
Theorem from_tokens_empty_token_set priority addc :
  (∀ cni, from_tokens priority addc [] cni = inl (ValueError msg_empty_tokens)) ∧
  (∀ tokens cni, tokens ≠ [] →
     from_tokens priority addc tokens cni ≠ inl (ValueError msg_empty_tokens)).
Proof.
  split; [done|]. intros [|first rest] cni Hne H; [done|].
  apply raises_only_from_tokens_cons in H.
  by apply token_exn_not_empty_tokens.
Qed.

Lemma from_tokens_empty_token_set_witness :
  [bibo] ≠ [] ∧
  from_tokens spec_priority spec_add_concatenation [bibo] 1
    ≠ inl (ValueError msg_empty_tokens).
Proof.
  split; [done|].
  apply (proj2 (from_tokens_empty_token_set spec_priority spec_add_concatenation)).
  done.
Defined.

(** ** Transition labels *)

Lemma concatenate_node_fresh c cni :
  concatenate_node NFA_new [c] cni = inr (literal_fragment cni (cni + 1) c, cni + 2).
Proof.
  unfold concatenate_node, literal_fragment, bind, get_node_index, lift, ret.
  simpl. replace (cni + 1 + 1) with (cni + 2) by lia. reflexivity.
Qed.

Lemma chr_valid c : valid_char c → chr c = inr [c].
Proof.
  intros [H0 H1]. unfold chr.
  destruct (Z.leb_spec 0 c); [|lia]. destruct (Z.ltb_spec c 1114112); [done | lia].
Qed.

Lemma weight_matches_singleton c x : weight_matches [c] x = true ↔ x = c.
Proof. unfold weight_matches. rewrite bool_decide_eq_true. naive_solver. Qed.

(** C1 (as amended). A label is stored in one of three encodings: the
    epsilon marker, the [repr] of the literal text ([concatenate_node]) or
    the ordinal of a character ([add_nodes_in_range]); [move] normalises
    the stored value whenever it tests an edge.  A stored literal for the
    character [c], in either encoding, matches an input symbol [x] iff
    [x = c]; the epsilon marker matches no input symbol other than the
    character of the marker itself. *)
Theorem label_match_rule (c x : Z) :
  valid_char c →
  (∀ cni, concatenate_node NFA_new [c] cni
            = inr (literal_fragment cni (cni + 1) c, cni + 2)) ∧
  normalise_weight (W_repr [c]) = inr [c] ∧
  normalise_weight (W_ord c) = inr [c] ∧
  normalise_weight W_epsilon = inr [epsilon] ∧
  (label_matches (W_repr [c]) x = inr true ↔ x = c) ∧
  (label_matches (W_ord c) x = inr true ↔ x = c) ∧
  (x ≠ epsilon → label_matches W_epsilon x = inr false).
Proof.
  intros Hc. split; [apply concatenate_node_fresh|].
  unfold label_matches. simpl. rewrite (chr_valid c Hc).
  repeat split; try (intros [= H%weight_matches_singleton]; done);
    try (intros ->; f_equal; by apply weight_matches_singleton).
  intros Hx. f_equal. unfold weight_matches. apply bool_decide_eq_false.
  intros [= ?]. done.
Qed.

Lemma label_match_rule_witness :
  valid_char 97 ∧
  (label_matches (W_ord 97) 98 = inr true ↔ 98 = 97).
Proof.
  split; [unfold valid_char; lia|].
  apply (label_match_rule 97 98). unfold valid_char. lia.
Defined.

(** C1, as stated, fails: the epsilon marker matches the input symbol
    [epsilon], so [move] follows an epsilon transition on that input; and
    the stored form is not canonical, two different stored values being
    normalised to the same label at each [move]. *)
Lemma epsilon_label_matches_input :
  label_matches W_epsilon epsilon = inr true ∧
  (∃ st, move epsilon_edge_fragment (PyNode 1) (InSymbol epsilon) initial_tstate
           = inr ({[2]}, st)) ∧
  W_repr [97] ≠ W_ord 97 ∧
  normalise_weight (W_repr [97]) = normalise_weight (W_ord 97).
Proof.
  split; [done|]. split; [|done].
  eexists. vm_compute. reflexivity.
Qed.

(** ** The operator branch of the scan *)

Lemma scan_operator_empty priority c operands cni :
  scan_operator priority c operands [] cni = inr ((operands, [c]), cni).
Proof. reflexivity. Qed.

Lemma scan_operator_push priority c top operators operands cni :
  priority top ≤ priority c →
  scan_operator priority c operands (top :: operators) cni
    = inr ((operands, c :: top :: operators), cni).
Proof.
  intros H. unfold scan_operator. simpl.
  destruct (Z.geb_spec (priority c) (priority top)); [done | lia].
Qed.

(** C2 (the code departs from the claim). With the star on top of a
    pending union, scanning the concatenation operator evaluates the star
    only and leaves the concatenation operator alone on the stack: the
    union has been popped by the loop, is not evaluated and is not pushed
    back. *)
Theorem scan_operator_discards_pending priority operands cni :
  priority ch_pipe < priority ch_amp →
  priority ch_amp < priority ch_star →
  scan_operator priority ch_amp operands [ch_star; ch_pipe] cni =
  match evaluate_operation ch_star operands cni with
  | inl e => inl e
  | inr (operands', cni') => inr ((operands', [ch_amp]), cni')
  end.
Proof.
  intros H1 H2. unfold scan_operator. simpl.
  destruct (Z.geb_spec (priority ch_amp) (priority ch_star)); [lia|].
  destruct (Z.leb_spec (priority ch_amp) (priority ch_star)); [|lia].
  destruct (Z.leb_spec (priority ch_amp) (priority ch_pipe)); [lia|].
  unfold bind. destruct (evaluate_operation _ _ _) as [e|[ops c']]; reflexivity.
Qed.

Lemma scan_operator_discards_pending_witness :
  spec_priority ch_pipe < spec_priority ch_amp ∧
  spec_priority ch_amp < spec_priority ch_star ∧
  ∃ closed cni',
    scan_operator spec_priority ch_amp
      [Some (literal_fragment 3 4 98); Some (literal_fragment 1 2 97)]
      [ch_star; ch_pipe] 5
    = inr (([Some closed; Some (literal_fragment 1 2 97)], [ch_amp]), cni').
Proof.
  split; [done|]. split; [done|].
  rewrite (scan_operator_discards_pending spec_priority); [|done..].
  eexists _, _. vm_compute. reflexivity.
Defined.

(** The same on a whole regex: the union of [a|b*&c] is lost; the result
    is the automaton of [b*&c], whose graph has none of the two nodes of
    the fragment of [a], and no union node was allocated. *)
Example from_regex_loses_union :
  ∃ f, from_regex spec_priority (py_str "a|b*&c") 1 = inr (Some f, 9)
       ∧ start_node f = Some 5 ∧ end_node f = Some 8
       ∧ node (graph f) !! 1 = None ∧ node (graph f) !! 2 = None.
Proof. eexists. vm_compute. repeat split; reflexivity. Qed.

(** ** Concatenation *)

Lemma concatenate_initialised A B a_start a_end b_start :
  start_node A = Some a_start → a_start ≠ 0 →
  end_node A = Some a_end → a_end ≠ 0 →
  start_node B = Some b_start →
  concatenate A B
    = inr {| start_node := start_node A;
             end_node := end_node B;
             graph := compose (add_edge a_end b_start W_epsilon (graph A)) (graph B) |}.
Proof.
  intros Hs Hs0 He He0 Hb. unfold concatenate. rewrite Hs, He, Hb. simpl.
  destruct (Z.eqb_spec a_start 0); [done|]. destruct (Z.eqb_spec a_end 0); done.
Qed.

(** C3 (the code departs from the claim). Concatenating onto the
    uninitialised placeholder [NFA()] takes over the graph of [B] only: the
    start and end of the result stay [None], they are not those of [B]. *)
Theorem concatenate_placeholder B :
  ∃ r, concatenate NFA_new B = inr r
       ∧ graph r = graph B ∧ start_node r = None ∧ end_node r = None.
Proof. eexists. repeat split. Qed.

Example concatenate_placeholder_literal :
  ∃ r, concatenate NFA_new (literal_fragment 1 2 97) = inr r
       ∧ start_node r ≠ start_node (literal_fragment 1 2 97)
       ∧ end_node r ≠ end_node (literal_fragment 1 2 97).
Proof. eexists. repeat split; discriminate. Qed.

(** ** The end of the compilation of one regex *)

(** C4 (as amended). When the scan has ended and the operator stack has
    been emptied, [from_regex] returns the top of the operand stack and
    does not look at how many fragments the stack holds: it raises exactly
    when the scan or the evaluation of the operators raises, returns [None]
    on an empty stack, and with exactly one fragment on the stack returns
    that fragment. *)
Theorem from_regex_returns_top_operand priority regex cni :
  (∀ e, from_regex priority regex cni = inl e
        ↔ from_regex_operands priority regex cni = inl e) ∧
  (∀ operands cni',
     from_regex_operands priority regex cni = inr (operands, cni') →
     from_regex priority regex cni = inr (final_pop operands, cni')) ∧
  (∀ f rest, final_pop (f :: rest) = f) ∧
  final_pop [] = None.
Proof.
  unfold from_regex, bind, ret.
  destruct (from_regex_operands priority regex cni) as [e|[ops c']];
    repeat split; try done; try (intros [= <-]; done).
  intros ops' c'' [= <- <-]. done.
Qed.

Lemma from_regex_returns_top_operand_witness :
  ∃ f cni',
    from_regex_operands spec_priority (py_str "a") 1 = inr ([Some f], cni') ∧
    from_regex spec_priority (py_str "a") 1 = inr (Some f, cni').
Proof.
  eexists _, _. split; [vm_compute; reflexivity|].
  apply (proj1 (proj2 (from_regex_returns_top_operand spec_priority (py_str "a") 1))
           [Some (literal_fragment 1 2 97)] 3).
  vm_compute. reflexivity.
Defined.

(** C4, as stated, fails: the operand stack of the regex [ab] holds two
    fragments, and [from_regex] returns the top one without raising. *)
Lemma from_regex_two_operands :
  ∃ a b cni',
    from_regex_operands spec_priority (py_str "ab") 1 = inr ([Some b; Some a], cni') ∧
    from_regex spec_priority (py_str "ab") 1 = inr (Some b, cni').
Proof. eexists _, _, _. split; vm_compute; reflexivity. Qed.

(** ** The body of [__epsilon_closure] *)

Lemma elem_of_neighbors G n ns v :
  neighbors G n = inr ns → v ∈ ns ↔ is_Some (adj G !! (n, v)).
Proof.
  unfold neighbors. destruct (decide _); [|discriminate]. intros [= <-].
  rewrite list_elem_of_omap. split.
  - intros ([[u v'] ws] & Hin & Hv). simpl in Hv.
    destruct (decide (u = n)) as [->|]; [|discriminate].
    injection Hv as ->. apply elem_of_map_to_list in Hin. eauto.
  - intros [ws Hws]. exists ((n, v), ws). split.
    + by apply elem_of_map_to_list.
    + simpl. by rewrite decide_True.
Qed.

Lemma neighbors_inr G n : n ∈ dom (node G) → ∃ ns, neighbors G n = inr ns.
Proof. intros H. unfold neighbors. rewrite decide_True by done. eauto. Qed.

Lemma add_epsilon_neighbors_spec G n ns : ∀ acc s,
  add_epsilon_neighbors G n ns acc = inr s →
  ∀ v, v ∈ s ↔ v ∈ acc ∨ (v ∈ ns ∧ get_edge_data_0 G n v = inr W_epsilon).
Proof.
  induction ns as [|x ns IH]; intros acc s; simpl.
  - intros [= <-] v. set_solver.
  - destruct (get_edge_data_0 G n x) as [e|w] eqn:Hx; [discriminate|].
    intros H v. rewrite (IH _ _ H). rewrite elem_of_cons.
    destruct (decide (w = W_epsilon)) as [->|Hw].
    + rewrite elem_of_union, elem_of_singleton. naive_solver.
    + split; (intros [?|[Hv ?]]; [by left|]); right.
      * split; [by right | done].
      * destruct Hv as [->|?]; [congruence | done].
Qed.

Lemma add_epsilon_neighbors_inr G n ns : ∀ acc,
  (∀ v, v ∈ ns → ∃ w, get_edge_data_0 G n v = inr w) →
  ∃ s, add_epsilon_neighbors G n ns acc = inr s.
Proof.
  induction ns as [|x ns IH]; intros acc Hns; simpl; [eauto|].
  destruct (Hns x) as [w ->]; [left|]. apply IH. intros v Hv. apply Hns. by right.
Qed.

Lemma get_edge_data_0_epsilon G u v :
  get_edge_data_0 G u v = inr W_epsilon ↔ ∃ ws, adj G !! (u, v) = Some (W_epsilon :: ws).
Proof.
  unfold get_edge_data_0. destruct (adj G !! (u, v)) as [[|w ws]|]; naive_solver.
Qed.

(** What the body computes: the node and its successors whose first edge
    is an epsilon edge. *)
Lemma epsilon_closure_body_spec fa n s :
  epsilon_closure_body fa n = inr s →
  ∀ v, v ∈ s ↔ v = n ∨ ∃ ws, adj (graph fa) !! (n, v) = Some (W_epsilon :: ws).
Proof.
  unfold epsilon_closure_body. destruct (neighbors _ _) as [e|ns] eqn:Hns; [discriminate|].
  intros H v. rewrite (add_epsilon_neighbors_spec _ _ _ _ _ H).
  rewrite elem_of_singleton, get_edge_data_0_epsilon, (elem_of_neighbors _ _ _ _ Hns).
  naive_solver.
Qed.

Lemma epsilon_closure_body_inr fa n :
  graph_wf (graph fa) → n ∈ dom (node (graph fa)) →
  ∃ s, epsilon_closure_body fa n = inr s.
Proof.
  intros Hwf Hn. unfold epsilon_closure_body.
  destruct (neighbors_inr _ _ Hn) as [ns Hns]. rewrite Hns.
  apply add_epsilon_neighbors_inr. intros v [ws Hws]%(elem_of_neighbors _ _ _ _ Hns).
  unfold get_edge_data_0. rewrite Hws.
  destruct (Hwf _ _ _ Hws) as (Hne & _). destruct ws; [done | eauto].
Qed.

Lemma epsilon_closure_body_self fa n s :
  epsilon_closure_body fa n = inr s → n ∈ s.
Proof. intros H. apply (epsilon_closure_body_spec _ _ _ H). by left. Qed.

Lemma elem_of_adj_targets G u v :
  is_Some (adj G !! (u, v)) → v ∈ adj_targets G.
Proof.
  intros [ws H]. unfold adj_targets. rewrite elem_of_list_to_set.
  apply list_elem_of_fmap. exists (u, v). split; [done|].
  apply list_elem_of_fmap. exists ((u, v), ws). split; [done|].
  by apply elem_of_map_to_list.
Qed.

Lemma epsilon_closure_body_bound fa n s :
  epsilon_closure_body fa n = inr s → s ⊆ {[n]} ∪ adj_targets (graph fa).
Proof.
  intros H v Hv. apply (epsilon_closure_body_spec _ _ _ H) in Hv as [->|[ws Hws]].
  - set_solver.
  - apply elem_of_union_r. eapply elem_of_adj_targets. eauto.
Qed.

(** ** The memo table *)

Lemma memo_ext_refl fa m : memo_ext fa m m.
Proof. split; [done|]. intros n s H. by left. Qed.

Lemma memo_ext_trans fa m1 m2 m3 :
  memo_ext fa m1 m2 → memo_ext fa m2 m3 → memo_ext fa m1 m3.
Proof.
  intros [H12 N12] [H23 N23]. split; [by etrans|].
  intros n s H3. destruct (N23 _ _ H3) as [H2|[H2 Hb]].
  - by apply N12.
  - right. split; [|done]. destruct (m1 !! n) as [x|] eqn:E; [|done].
    eapply lookup_weaken in E; [|exact H12]. congruence.
Qed.

Lemma memo_ext_insert fa m n s :
  m !! n = None → epsilon_closure_body fa n = inr s → memo_ext fa m (<[n:=s]> m).
Proof.
  intros Hn Hb. split; [by apply insert_subseteq|].
  intros n' s'. rewrite lookup_insert. case_decide as E.
  - subst n'. intros [= <-]. by right.
  - intros ?. by left.
Qed.

Lemma memo_ext_lookup fa m m' n s :
  memo_ext fa m m' → m !! n = Some s → m' !! n = Some s.
Proof. intros [H _] Hn. by eapply lookup_weaken. Qed.

Lemma memo_ext_sound fa m m' :
  memo_sound fa m → memo_ext fa m m' → memo_sound fa m'.
Proof.
  intros Hs [_ Hn] n s H. destruct (Hn _ _ H) as [H'|[_ Hb]]; [by eapply Hs | done].
Qed.

Lemma memo_sound_empty fa : memo_sound fa ∅.
Proof. intros n s. by rewrite lookup_empty. Qed.

Lemma epsilon_closure_inr fa n st s st' :
  epsilon_closure fa n st = inr (s, st') →
  heap st' = heap st ∧ memo st' !! n = Some s ∧ memo_ext fa (memo st) (memo st').
Proof.
  unfold epsilon_closure. destruct (memo st !! n) as [x|] eqn:Hm.
  - intros [= <- <-]. split_and!; [done..|apply memo_ext_refl].
  - destruct (epsilon_closure_body fa n) as [e|x] eqn:Hb; [discriminate|].
    intros [= <- <-]. simpl. split_and!; [done|by rewrite lookup_insert_eq|].
    by apply memo_ext_insert.
Qed.

Lemma epsilon_closure_hit fa n st s :
  memo st !! n = Some s → epsilon_closure fa n st = inr (s, st).
Proof. intros H. unfold epsilon_closure. by rewrite H. Qed.

Lemma epsilon_closure_ok fa n st :
  is_Some (memo st !! n) ∨ (∃ s, epsilon_closure_body fa n = inr s) →
  ∃ s st', epsilon_closure fa n st = inr (s, st').
Proof.
  unfold epsilon_closure. destruct (memo st !! n) as [x|] eqn:Hm; [eauto|].
  intros [[? [=]]|[s ->]]. eauto.
Qed.

Lemma epsilon_closure_inl fa n st e :
  epsilon_closure fa n st = inl e →
  memo st !! n = None ∧ epsilon_closure_body fa n = inl e.
Proof.
  unfold epsilon_closure. destruct (memo st !! n); [discriminate|].
  destruct (epsilon_closure_body fa n); [|discriminate]. by intros [= <-].
Qed.

(** ** One pass of [get_epsilon_closures] over the set *)

Lemma new_epsilon_nodes_unfold fa cur :
  new_epsilon_nodes fa cur = foldM (closure_pass_body fa cur) ∅ (elements cur).
Proof. reflexivity. Qed.

Lemma closure_pass_body_inr fa cur acc n st acc' st' :
  closure_pass_body fa cur acc n st = inr (acc', st') ↔
  ∃ s, epsilon_closure fa n st = inr (s, st')
       ∧ acc' = acc ∪ filter (λ e, e ∉ cur) s.
Proof.
  unfold closure_pass_body. rewrite bind_inr. split.
  - intros (s & st1 & H1 & [= <- <-]). eauto.
  - intros (s & H1 & ->). eauto.
Qed.

Lemma closure_pass_inr fa cur l : ∀ acc st eps st',
  foldM (closure_pass_body fa cur) acc l st = inr (eps, st') →
  heap st' = heap st ∧ memo_ext fa (memo st) (memo st') ∧
  (∀ n, n ∈ l → is_Some (memo st' !! n)) ∧
  (∀ v, v ∈ eps ↔
        v ∈ acc ∨ ((v ∉ cur) ∧ ∃ n s, n ∈ l ∧ memo st' !! n = Some s ∧ v ∈ s)).
Proof.
  induction l as [|a l IH]; intros acc st eps st'; simpl.
  - intros [= <- <-]. split_and!; [done|apply memo_ext_refl|..].
    + intros n Hn. by apply elem_of_nil in Hn.
    + intros v. split; [by left|]. intros [?|(_ & n & s & Hn & _)]; [done|].
      by apply elem_of_nil in Hn.
  - rewrite bind_inr. intros (acc1 & st1 & H1 & H2).
    apply closure_pass_body_inr in H1 as (s & H1 & ->).
    apply epsilon_closure_inr in H1 as (Hh1 & Hm1 & He1).
    apply IH in H2 as (Hh2 & He2 & Hd2 & Hv2).
    pose proof (memo_ext_lookup _ _ _ _ _ He2 Hm1) as Ha.
    split_and!.
    + congruence.
    + by eapply memo_ext_trans.
    + intros n [->|Hn]%elem_of_cons; [eauto | by apply Hd2].
    + intros v. rewrite Hv2, elem_of_union, elem_of_filter. split.
      * intros [[?|[? ?]]|(Hc & n & s' & Hn & Hs' & Hv)].
        -- by left.
        -- right. split; [done|]. exists a, s. split_and!; [left|done..].
        -- right. split; [done|]. exists n, s'. split_and!; [by right|done..].
      * intros [?|(Hc & n & s' & [->|Hn]%elem_of_cons & Hs' & Hv)].
        -- left. by left.
        -- left; right. split; [done|]. congruence.
        -- right. eauto 10.
Qed.

Lemma closure_pass_ok fa cur l : ∀ acc st,
  (∀ n, n ∈ l → is_Some (memo st !! n) ∨ ∃ s, epsilon_closure_body fa n = inr s) →
  ∃ eps st', foldM (closure_pass_body fa cur) acc l st = inr (eps, st').
Proof.
  induction l as [|a l IH]; intros acc st Hl; simpl; [unfold ret; eauto|].
  destruct (epsilon_closure_ok fa a st) as (s & st1 & H1); [apply Hl; left|].
  destruct (IH (acc ∪ filter (λ e, e ∉ cur) s) st1) as (eps & st' & H2).
  { intros n Hn. destruct (Hl n) as [[x Hx]|?]; [by right| |by right].
    left. apply epsilon_closure_inr in H1 as (_ & _ & He).
    exists x. by eapply memo_ext_lookup. }
  exists eps, st'. apply bind_inr. exists (acc ∪ filter (λ e, e ∉ cur) s), st1.
  split; [|done]. apply closure_pass_body_inr. eauto.
Qed.

(** When every node of the set is memoised with a closure inside the set,
    a pass finds nothing and changes nothing. *)
Lemma closure_pass_hits fa cur l : ∀ st,
  (∀ n, n ∈ l → ∃ s, memo st !! n = Some s ∧ s ⊆ cur) →
  foldM (closure_pass_body fa cur) ∅ l st = inr (∅, st).
Proof.
  induction l as [|a l IH]; intros st Hl; simpl; [done|].
  destruct (Hl a) as (s & Hs & Hsub); [left|].
  unfold bind at 1. unfold closure_pass_body at 1. unfold bind at 1.
  rewrite (epsilon_closure_hit _ _ _ _ Hs). unfold ret at 1.
  replace (∅ ∪ filter (λ e, e ∉ cur) s) with (∅ : gset Z).
  - apply IH. intros n Hn. apply Hl. by right.
  - apply set_eq. intros v. rewrite elem_of_union, elem_of_filter. set_solver.
Qed.

Lemma closure_pass_memo_new fa cur l : ∀ acc st eps st',
  foldM (closure_pass_body fa cur) acc l st = inr (eps, st') →
  ∀ n s, memo st' !! n = Some s →
         memo st !! n = Some s ∨ (n ∈ l ∧ epsilon_closure_body fa n = inr s).
Proof.
  induction l as [|a l IH]; intros acc st eps st'; simpl.
  - intros [= <- <-] n s H. by left.
  - rewrite bind_inr. intros (acc1 & st1 & H1 & H2) n s Hn.
    apply closure_pass_body_inr in H1 as (s1 & H1 & ->).
    destruct (IH _ _ _ _ H2 _ _ Hn) as [Hn1|[Hin Hb]].
    + revert H1. unfold epsilon_closure.
      destruct (memo st !! a) as [x|] eqn:Hm.
      * intros [= <- <-]. by left.
      * destruct (epsilon_closure_body fa a) as [e|x] eqn:Hb; [discriminate|].
        intros [= <- <-]. simpl in Hn1. revert Hn1. rewrite lookup_insert.
        case_decide as E.
        -- subst. intros [= <-]. right. split; [left | done].
        -- intros ?. by left.
    + right. split; [by right | done].
Qed.

Lemma epsilon_closure_body_inl fa n e :
  epsilon_closure_body fa n = inl e → e = NetworkXError ∨ e = KeyError.
Proof.
  unfold epsilon_closure_body, neighbors. destruct (decide _); [|intros [= <-]; by left].
  generalize ({[n]} : gset Z).
  induction (omap _ _) as [|x ns IH]; intros acc; simpl; [discriminate|].
  unfold get_edge_data_0 at 1.
  destruct (adj (graph fa) !! (n, x)) as [[|w ws]|]; eauto; intros [= <-]; by right.
Qed.

Lemma closure_pass_inl fa cur l : ∀ acc st e,
  foldM (closure_pass_body fa cur) acc l st = inl e →
  e = NetworkXError ∨ e = KeyError.
Proof.
  intros acc st e H.
  eapply (raises_only_foldM (λ e, e = NetworkXError ∨ e = KeyError)); [|exact H].
  intros b a. unfold closure_pass_body.
  apply raises_only_bind; [|intros; apply raises_only_ret].
  intros s' e' [_ Hb]%epsilon_closure_inl. by eapply epsilon_closure_body_inl.
Qed.

(** ** The recursion of [get_epsilon_closures] *)

Lemma get_epsilon_closures_fuel_S fuel fa l st :
  get_epsilon_closures_fuel (S fuel) fa (PySet l) st =
  match new_epsilon_nodes fa (deref st l) st with
  | inl e => inl e
  | inr (eps, st1) =>
      if decide (eps = ∅) then inr (l, st1)
      else get_epsilon_closures_fuel fuel fa (PySet l)
             {| memo := memo st1; heap := <[l := deref st1 l ∪ eps]> (heap st1) |}
  end.
Proof.
  simpl. unfold bind, as_set, ret, read. simpl.
  destruct (new_epsilon_nodes fa (deref st l) st) as [e|[eps st1]]; [done|].
  destruct (decide (eps = ∅)); done.
Qed.

Lemma deref_insert st m l s :
  deref {| memo := m; heap := <[l := s]> (heap st) |} l = s.
Proof. unfold deref. simpl. by rewrite lookup_insert_eq. Qed.

Lemma deref_heap st st' l : heap st' = heap st → deref st' l = deref st l.
Proof. unfold deref. by intros ->. Qed.

Lemma closures_fuel_inr fuel fa : ∀ l st l' st',
  get_epsilon_closures_fuel fuel fa (PySet l) st = inr (l', st') →
  l' = l ∧ memo_ext fa (memo st) (memo st') ∧
  (∀ l2, l2 ≠ l → heap st' !! l2 = heap st !! l2) ∧
  deref st l ⊆ deref st' l ∧
  (∀ n, n ∈ deref st' l → ∃ s, memo st' !! n = Some s ∧ s ⊆ deref st' l) ∧
  (∀ v, v ∈ deref st' l → ∃ u, u ∈ deref st l ∧ rtc (memo_succ (memo st')) u v).
Proof.
  induction fuel as [|fuel IH]; intros l st l' st'; [discriminate|].
  rewrite get_epsilon_closures_fuel_S, new_epsilon_nodes_unfold.
  destruct (foldM _ _ _ _) as [e|[eps st1]] eqn:Hpass; [discriminate|].
  apply closure_pass_inr in Hpass as (Hh & He & Hd & Hv).
  pose proof (deref_heap _ _ l Hh) as Hcur.
  destruct (decide (eps = ∅)) as [->|Hne].
  - intros [= <- <-]. rewrite Hcur, Hh. split_and!; try done.
    + intros n Hn. destruct (Hd n) as [s Hs]; [by apply elem_of_elements|].
      exists s. split; [done|]. intros v Hvs.
      destruct (decide (v ∈ deref st l)) as [|Hnot]; [done|].
      exfalso. apply (not_elem_of_empty (C:=gset Z) v). apply Hv. right.
      split; [done|]. exists n, s. by rewrite elem_of_elements.
    + intros v Hvin. exists v. split; [done | apply rtc_refl].
  - intros H. apply IH in H as (-> & He2 & Hh2 & Hsub & Hclosed & Hreach).
    rewrite deref_insert in Hsub, Hreach. simpl in *.
    split_and!; try done.
    + by eapply memo_ext_trans.
    + intros l2 Hl2. rewrite (Hh2 l2 Hl2), lookup_insert_ne by done. by rewrite Hh.
    + rewrite <- Hcur. set_solver.
    + intros v Hvin. destruct (Hreach v Hvin) as (u & Hu & Hrtc).
      apply elem_of_union in Hu as [Hu|Hu].
      * exists u. by rewrite <- Hcur.
      * apply Hv in Hu as [Hu|(_ & n & s & Hn & Hs & Hus)]; [set_solver|].
        exists n. split; [by apply elem_of_elements in Hn|].
        eapply rtc_l; [|exact Hrtc]. exists s. split; [|done].
        by eapply memo_ext_lookup.
Qed.

Lemma elem_of_memo_range m v :
  v ∈ memo_range m ↔ ∃ n s, m !! n = Some s ∧ v ∈ s.
Proof.
  unfold memo_range. rewrite elem_of_union_list. split.
  - intros (s & Hs & Hv). apply list_elem_of_fmap in Hs as ([n s'] & -> & Hin).
    apply elem_of_map_to_list in Hin. eauto.
  - intros (n & s & Hm & Hv). exists s. split; [|done].
    apply list_elem_of_fmap. exists (n, s). split; [done|].
    by apply elem_of_map_to_list.
Qed.

(** The recursion ends before the fuel does. *)
Lemma closures_fuel_total fuel fa : ∀ l st,
  (size (closure_universe fa (memo st) (deref st l) ∖ deref st l) < fuel)%nat →
  get_epsilon_closures_fuel fuel fa (PySet l) st ≠ inl RecursionError.
Proof.
  induction fuel as [|fuel IH]; intros l st Hfuel; [lia|].
  rewrite get_epsilon_closures_fuel_S, new_epsilon_nodes_unfold.
  destruct (foldM _ _ _ _) as [e|[eps st1]] eqn:Hpass.
  { apply closure_pass_inl in Hpass as [-> | ->]; discriminate. }
  destruct (decide (eps = ∅)) as [->|Hne]; [discriminate|].
  pose proof (closure_pass_memo_new _ _ _ _ _ _ _ Hpass) as Hnew.
  apply closure_pass_inr in Hpass as (Hh & He & Hd & Hv).
  pose proof (deref_heap _ _ l Hh) as Hcur.
  apply IH. rewrite deref_insert. simpl. rewrite Hcur.
  set (cur := deref st l) in *.
  assert (Hrange : memo_range (memo st1)
                     ⊆ closure_universe fa (memo st) cur).
  { intros v (n & s & Hn & Hvs)%elem_of_memo_range. unfold closure_universe.
    destruct (Hnew _ _ Hn) as [Hold|[Hin Hb]].
    - apply elem_of_union_l, elem_of_union_r, elem_of_memo_range. eauto.
    - apply epsilon_closure_body_bound in Hb. apply Hb in Hvs.
      apply elem_of_elements in Hin. set_solver. }
  assert (Heps : eps ⊆ closure_universe fa (memo st) cur ∖ cur).
  { intros v Hvin. apply Hv in Hvin as [?|(Hc & n & s & Hn & Hs & Hvs)]; [set_solver|].
    apply elem_of_difference. split; [|done]. apply Hrange, elem_of_memo_range. eauto. }
  assert (size (closure_universe fa (memo st1) (cur ∪ eps) ∖ (cur ∪ eps))
          < size (closure_universe fa (memo st) cur ∖ cur))%nat; [|lia].
  apply subset_size. apply set_choose_L in Hne as [x Hx]. split.
  - unfold closure_universe at 1. intros v. pose proof (Hrange v). set_solver.
  - intros Hsub. specialize (Heps x Hx). specialize (Hsub x Heps). set_solver.
Qed.

Lemma closures_fuel_sound_raises fuel fa :
  graph_wf (graph fa) → ∀ l st e,
  memo_sound fa (memo st) → deref st l ⊆ dom (node (graph fa)) →
  get_epsilon_closures_fuel fuel fa (PySet l) st = inl e → e = RecursionError.
Proof.
  intros Hwf. induction fuel as [|fuel IH]; intros l st e Hs Hsub.
  { by intros [= <-]. }
  rewrite get_epsilon_closures_fuel_S, new_epsilon_nodes_unfold.
  destruct (closure_pass_ok fa (deref st l) (elements (deref st l)) ∅ st)
    as (eps & st1 & Hpass).
  { intros n Hn%elem_of_elements. right. apply epsilon_closure_body_inr; auto. }
  rewrite Hpass. apply closure_pass_inr in Hpass as (Hh & He & Hd & Hv).
  destruct (decide (eps = ∅)); [discriminate|].
  apply IH; simpl.
  - by eapply memo_ext_sound.
  - rewrite deref_insert, (deref_heap _ _ l Hh).
    apply union_least; [done|]. intros v Hvin.
    apply Hv in Hvin as [?|(_ & x & s & Hx%elem_of_elements & Hxs & Hvs)]; [set_solver|].
    eapply memo_ext_sound in Hxs; [|exact Hs|exact He].
    apply (epsilon_closure_body_spec _ _ _ Hxs) in Hvs as [->|[ws Hws]]; [auto|].
    by apply Hwf in Hws as (_ & _ & ?).
Qed.

Lemma get_epsilon_closures_total fa l st :
  get_epsilon_closures fa (PySet l) st ≠ inl RecursionError.
Proof.
  unfold get_epsilon_closures, closure_fuel. apply closures_fuel_total. simpl.
  apply Nat.lt_succ_r, subseteq_size. set_solver.
Qed.

Lemma get_epsilon_closures_inr fa l st l' st' :
  get_epsilon_closures fa (PySet l) st = inr (l', st') →
  l' = l ∧ memo_ext fa (memo st) (memo st') ∧
  (∀ l2, l2 ≠ l → heap st' !! l2 = heap st !! l2) ∧
  deref st l ⊆ deref st' l ∧
  (∀ n, n ∈ deref st' l → ∃ s, memo st' !! n = Some s ∧ s ⊆ deref st' l) ∧
  (∀ v, v ∈ deref st' l → ∃ u, u ∈ deref st l ∧ rtc (memo_succ (memo st')) u v).
Proof. apply closures_fuel_inr. Qed.

Lemma get_epsilon_closures_ok fa l st :
  graph_wf (graph fa) → memo_sound fa (memo st) →
  deref st l ⊆ dom (node (graph fa)) →
  ∃ st', get_epsilon_closures fa (PySet l) st = inr (l, st').
Proof.
  intros Hwf Hs Hsub.
  destruct (get_epsilon_closures fa (PySet l) st) as [e|[l' st']] eqn:H.
  - pose proof (get_epsilon_closures_total fa l st) as Ht.
    assert (e = RecursionError) as ->; [|done].
    eapply (closures_fuel_sound_raises _ fa Hwf l st e Hs Hsub). exact H.
  - apply get_epsilon_closures_inr in H as H'. destruct H' as (-> & _). eauto.
Qed.

(** Under a sound memo table the set that is returned is the epsilon
    closure of the set that was passed. *)
Lemma get_epsilon_closures_semantic fa l st l' st' :
  memo_sound fa (memo st) →
  get_epsilon_closures fa (PySet l) st = inr (l', st') →
  ∀ v, v ∈ deref st' l ↔ eps_closure_of fa (deref st l) v.
Proof.
  intros Hs (-> & He & _ & Hsub & Hclosed & Hreach)%get_epsilon_closures_inr v.
  pose proof (memo_ext_sound _ _ _ Hs He) as Hs'. split.
  - intros (u & Hu & Hrtc)%Hreach. exists u. split; [done|].
    eapply rtc_subrel; [|exact Hrtc]. intros x y (s & Hx & Hy). exists s. eauto.
  - intros (u & Hu & Hrtc). apply Hsub in Hu. revert Hu.
    induction Hrtc as [|x y z (s & Hb & Hy) _ IH]; [done|]. intros Hx. apply IH.
    destruct (Hclosed x Hx) as (s' & Hm & Hs'sub). apply Hs' in Hm.
    rewrite Hb in Hm. injection Hm as ->. auto.
Qed.

(** C8. Epsilon closure is idempotent: the recursion of
    [get_epsilon_closures] always ends; when it returns a set for [S], a
    second call on that set returns the same set object with the same
    members and leaves the state as it is; and it does return a set when
    the members of [S] are states of the automaton. *)
Theorem get_epsilon_closures_idempotent fa l st :
  get_epsilon_closures fa (PySet l) st ≠ inl RecursionError ∧
  (∀ l1 st1,
     get_epsilon_closures fa (PySet l) st = inr (l1, st1) →
     l1 = l ∧ get_epsilon_closures fa (PySet l1) st1 = inr (l1, st1)) ∧
  (graph_wf (graph fa) → memo_sound fa (memo st) →
   deref st l ⊆ dom (node (graph fa)) →
   ∃ st1, get_epsilon_closures fa (PySet l) st = inr (l, st1)).
Proof.
  split; [apply get_epsilon_closures_total|]. split; [|apply get_epsilon_closures_ok].
  intros l1 st1 (-> & _ & _ & _ & Hclosed & _)%get_epsilon_closures_inr.
  split; [done|]. unfold get_epsilon_closures, closure_fuel.
  rewrite get_epsilon_closures_fuel_S, new_epsilon_nodes_unfold.
  rewrite closure_pass_hits; [by rewrite decide_True|].
  intros n Hn%elem_of_elements. auto.
Qed.

Lemma get_epsilon_closures_idempotent_witness :
  ∃ st1,
    get_epsilon_closures epsilon_edge_fragment (PySet 1%positive) one_set_tstate
      = inr (1%positive, st1) ∧
    get_epsilon_closures epsilon_edge_fragment (PySet 1%positive) st1
      = inr (1%positive, st1).
Proof.
  eexists. split; [vm_compute; reflexivity|].
  apply (proj1 (proj2 (get_epsilon_closures_idempotent
                         epsilon_edge_fragment 1%positive one_set_tstate))).
  vm_compute. reflexivity.
Defined.

(** ** [move] *)

Lemma elem_of_edges_iter G n es d w :
  edges_iter G n = inr es →
  (d, w) ∈ es ↔ ∃ ws, adj G !! (n, d) = Some ws ∧ w ∈ ws.
Proof.
  unfold edges_iter. destruct (decide _); [|discriminate]. intros [= <-].
  rewrite list_elem_of_join. split.
  - intros (l & Hdw & Hl). apply list_elem_of_fmap in Hl as ([[u v] ws] & -> & Hin).
    simpl in Hdw. destruct (decide (u = n)) as [->|]; [|by apply elem_of_nil in Hdw].
    apply list_elem_of_fmap in Hdw as (w' & [= -> ->] & Hw).
    apply elem_of_map_to_list in Hin. eauto.
  - intros (ws & Hws & Hw). eexists. split; last first.
    + apply list_elem_of_fmap. exists ((n, d), ws). split; [done|].
      by apply elem_of_map_to_list.
    + simpl. rewrite decide_True by done. apply list_elem_of_fmap. eauto.
Qed.

Lemma edges_iter_inr G n : n ∈ dom (node G) → ∃ es, edges_iter G n = inr es.
Proof. intros H. unfold edges_iter. rewrite decide_True by done. eauto. Qed.

Lemma move_inputs_spec (w : list Z) (d : Z) (inputs : list Z) (acc : gset Z) v :
  v ∈ foldr (λ input destination,
               if weight_matches w input then destination ∪ {[d]} else destination)
            acc inputs
  ↔ v ∈ acc ∨ (v = d ∧ ∃ x, x ∈ inputs ∧ weight_matches w x = true).
Proof.
  induction inputs as [|x inputs IH]; simpl.
  - split; [by left|]. intros [?|(_ & x & Hx & _)]; [done|]. by apply elem_of_nil in Hx.
  - destruct (weight_matches w x) eqn:Hwx.
    + rewrite elem_of_union, elem_of_singleton, IH. split.
      * intros [[?|(-> & y & Hy & Hm)]| ->]; [by left|right..].
        -- split; [done|]. exists y. split; [by right | done].
        -- split; [done|]. exists x. split; [left | done].
      * intros [?|(-> & _)]; [left; by left | by right].
    + rewrite IH. split.
      * intros [?|(-> & y & Hy & Hm)]; [by left|right].
        split; [done|]. exists y. split; [by right | done].
      * intros [?|(-> & y & [->|Hy]%elem_of_cons & Hm)]; [by left|congruence|right].
        eauto.
Qed.

Lemma move_edges_inr inputs es : ∀ acc st acc' st',
  move_edges inputs es acc st = inr (acc', st') →
  st' = st ∧
  ∀ v, v ∈ acc' ↔
       v ∈ acc ∨ ∃ w x, (v, w) ∈ es ∧ x ∈ inputs ∧ label_matches w x = inr true.
Proof.
  unfold move_edges.
  induction es as [|[d w] es IH]; intros acc st acc' st'; simpl.
  - intros [= <- <-]. split; [done|]. intros v. split; [by left|].
    intros [?|(w & x & H & _)]; [done|]. by apply elem_of_nil in H.
  - rewrite bind_inr. intros (acc1 & st1 & H1 & H2).
    apply bind_inr in H1 as (s & st0 & Hs & [= <- <-]).
    apply lift_inr in Hs as [Hs ->]. simpl in Hs.
    apply IH in H2 as [-> Hv]. split; [done|]. intros v.
    rewrite Hv, move_inputs_spec. split.
    + intros [[?|(-> & x & Hx%elem_of_elements & Hm)]|(w' & x & Hin & Hx & Hm)].
      * by left.
      * right. exists w, x. split_and!; [left|done|].
        unfold label_matches. by rewrite Hs, Hm.
      * right. exists w', x. split_and!; [by right|done..].
    + intros [?|(w' & x & [[= -> ->]|Hin]%elem_of_cons & Hx & Hm)].
      * left. by left.
      * left. right. split; [done|]. exists x. rewrite elem_of_elements.
        split; [done|]. unfold label_matches in Hm. rewrite Hs in Hm. congruence.
      * right. eauto.
Qed.

Lemma move_edges_ok inputs es : ∀ acc st,
  (∀ d w, (d, w) ∈ es → ∃ s, normalise_weight w = inr s) →
  ∃ acc', move_edges inputs es acc st = inr (acc', st).
Proof.
  unfold move_edges.
  induction es as [|[d w] es IH]; intros acc st Hes; simpl; [unfold ret; eauto|].
  destruct (Hes d w) as [s Hs]; [left|].
  unfold bind at 1. unfold bind at 1. unfold lift. simpl. rewrite Hs. unfold ret at 1.
  apply IH. intros d' w' H. apply (Hes d' w'). by right.
Qed.

Lemma move_node_inr fa inputs acc n st acc' st' :
  move_node fa inputs acc n st = inr (acc', st') →
  st' = st ∧
  ∀ v, v ∈ acc' ↔ v ∈ acc ∨ ∃ x, x ∈ inputs ∧ transition fa n v x.
Proof.
  unfold move_node. rewrite bind_inr. intros (es & st0 & [Hes ->]%lift_inr & H).
  apply move_edges_inr in H as [-> Hv]. split; [done|]. intros v. rewrite Hv.
  unfold transition. split.
  - intros [?|(w & x & Hin & Hx & Hm)]; [by left|right].
    apply (elem_of_edges_iter _ _ _ _ _ Hes) in Hin as (ws & Hws & Hw). eauto 10.
  - intros [?|(x & Hx & ws & w & Hws & Hw & Hm)]; [by left|right].
    exists w, x. split_and!; [|done..].
    apply (elem_of_edges_iter _ _ _ _ _ Hes). eauto.
Qed.

Lemma normalise_weight_ok G k ws w :
  labels_valid G → adj G !! k = Some ws → w ∈ ws → ∃ s, normalise_weight w = inr s.
Proof.
  intros Hl Hk Hw. destruct w as [|s|n]; simpl; eauto.
  rewrite chr_valid; eauto.
Qed.

Lemma move_node_ok fa inputs acc n st :
  labels_valid (graph fa) → n ∈ dom (node (graph fa)) →
  ∃ acc', move_node fa inputs acc n st = inr (acc', st).
Proof.
  intros Hl Hn. unfold move_node. destruct (edges_iter_inr _ _ Hn) as [es Hes].
  unfold bind, lift. rewrite Hes. apply move_edges_ok. intros d w Hin.
  apply (elem_of_edges_iter _ _ _ _ _ Hes) in Hin as (ws & Hws & Hw).
  by eapply normalise_weight_ok.
Qed.

Lemma move_loop_inr fa inputs l : ∀ acc st acc' st',
  foldM (move_node fa inputs) acc l st = inr (acc', st') →
  st' = st ∧
  ∀ v, v ∈ acc' ↔ v ∈ acc ∨ ∃ n x, n ∈ l ∧ x ∈ inputs ∧ transition fa n v x.
Proof.
  induction l as [|a l IH]; intros acc st acc' st'; simpl.
  - intros [= <- <-]. split; [done|]. intros v. split; [by left|].
    intros [?|(n & x & H & _)]; [done|]. by apply elem_of_nil in H.
  - rewrite bind_inr. intros (acc1 & st1 & H1 & H2).
    apply move_node_inr in H1 as [-> Hv1]. apply IH in H2 as [-> Hv2].
    split; [done|]. intros v. rewrite Hv2, Hv1. split.
    + intros [[?|(x & Hx & Ht)]|(n & x & Hn & Hx & Ht)]; [by left|right..].
      * exists a, x. split_and!; [left|done..].
      * exists n, x. split_and!; [by right|done..].
    + intros [?|(n & x & [->|Hn]%elem_of_cons & Hx & Ht)].
      * left. by left.
      * left. right. eauto.
      * right. eauto.
Qed.

Lemma move_loop_ok fa inputs l : ∀ acc st,
  labels_valid (graph fa) → (∀ n, n ∈ l → n ∈ dom (node (graph fa))) →
  ∃ acc', foldM (move_node fa inputs) acc l st = inr (acc', st).
Proof.
  induction l as [|a l IH]; intros acc st Hl Hin; simpl; [unfold ret; eauto|].
  destruct (move_node_ok fa inputs acc a st Hl) as [acc1 H1]; [apply Hin; left|].
  unfold bind. rewrite H1. apply IH; [done|]. intros n Hn. apply Hin. by right.
Qed.

Lemma move_inr fa source input st dest st' :
  move fa source input st = inr (dest, st') →
  ∃ l st0 st1,
    as_set source st = inr (l, st0) ∧
    get_epsilon_closures fa (PySet l) st0 = inr (l, st1) ∧
    memo st' = memo st1 ∧ heap st' = <[l := deref st1 l]> (heap st1) ∧
    ∀ d, d ∈ dest ↔
         ∃ n x, n ∈ deref st1 l ∧ x ∈ input_set input ∧ transition fa n d x.
Proof.
  unfold move. rewrite bind_inr. intros (l & st0 & Has & H).
  apply bind_inr in H as (l1 & st1 & Hcl & H).
  pose proof (get_epsilon_closures_inr _ _ _ _ _ Hcl) as (-> & _).
  apply bind_inr in H as (cv & st1' & [= <- <-] & H).
  apply bind_inr in H as ([] & st2 & [= <-] & H).
  apply bind_inr in H as (nv & st2' & [= <- <-] & H).
  rewrite union_idemp_L in H. rewrite deref_insert in H.
  apply (move_loop_inr fa (input_set input)) in H as [-> Hd].
  exists l, st0, st1. split_and!; try done.
  intros d. rewrite Hd. split.
  - intros [?|(n & x & Hn%elem_of_elements & ?)]; [set_solver | eauto].
  - intros (n & x & Hn & ?). right. exists n, x. by rewrite elem_of_elements.
Qed.

Lemma move_ok fa source input st :
  graph_wf (graph fa) → labels_valid (graph fa) → memo_sound fa (memo st) →
  arg_value source st ⊆ dom (node (graph fa)) →
  ∃ dest st', move fa source input st = inr (dest, st').
Proof.
  intros Hwf Hl Hs Hsub.
  assert (∃ l st0, as_set source st = inr (l, st0) ∧ memo st0 = memo st
                   ∧ deref st0 l = arg_value source st) as (l & st0 & Has & Hm & Hv).
  { destruct source as [n|l]; simpl.
    - eexists _, _. split; [reflexivity|]. split; [done|]. apply deref_insert.
    - eexists _, _. split; [reflexivity|]. done. }
  destruct (get_epsilon_closures_ok fa l st0) as [st1 Hcl]; [done| |by rewrite Hv|].
  { by rewrite Hm. }
  pose proof (get_epsilon_closures_semantic fa l st0 l st1) as Hsem.
  rewrite Hm in Hsem. specialize (Hsem Hs Hcl).
  destruct (move_loop_ok fa (input_set input) (elements (deref st1 l)) ∅
              {| memo := memo st1; heap := <[l := deref st1 l]> (heap st1) |} Hl)
    as [dest Hloop].
  { intros n Hn%elem_of_elements. apply Hsem in Hn as (u & Hu & Hrtc).
    rewrite Hv in Hu. apply Hsub in Hu. revert Hu.
    induction Hrtc as [|x y z (s & Hb & Hy) _ IH]; [done|]. intros Hx. apply IH.
    apply (epsilon_closure_body_spec _ _ _ Hb) in Hy as [->|[ws Hws]]; [done|].
    by apply Hwf in Hws as (_ & _ & ?). }
  exists dest, {| memo := memo st1; heap := <[l := deref st1 l]> (heap st1) |}.
  unfold move. apply bind_inr. exists l, st0. split; [done|].
  apply bind_inr. exists l, st1. split; [done|].
  apply bind_inr. exists (deref st1 l), st1. split; [done|].
  apply bind_inr. eexists tt, _. split; [reflexivity|].
  apply bind_inr. eexists _, _. split; [reflexivity|].
  rewrite union_idemp_L, deref_insert. exact Hloop.
Qed.

Lemma as_set_inr source st l st0 :
  as_set source st = inr (l, st0) →
  memo st0 = memo st ∧ deref st0 l = arg_value source st.
Proof.
  destruct source as [n|l']; simpl.
  - intros [= <- <-]. split; [done | apply deref_insert].
  - intros [= <- <-]. done.
Qed.

(** C5. [move] first computes the epsilon closure of its sources with
    [get_epsilon_closures], and then returns exactly the destinations of
    the transitions that leave a state of that closure under a label
    matching one of the inputs, and nothing more: no closure is taken of
    the result.  When the memo table is sound the closure is the epsilon
    closure of the sources in the graph, and on a well-formed automaton
    whose sources are states of the graph [move] does return. *)
Theorem move_closes_sources_only fa source input st :
  (∀ dest st',
     move fa source input st = inr (dest, st') →
     ∃ l st0 st1,
       as_set source st = inr (l, st0) ∧
       get_epsilon_closures fa (PySet l) st0 = inr (l, st1) ∧
       ∀ d, d ∈ dest ↔
            ∃ n x, n ∈ deref st1 l ∧ x ∈ input_set input ∧ transition fa n d x) ∧
  (memo_sound fa (memo st) →
   ∀ dest st',
     move fa source input st = inr (dest, st') →
     ∀ d, d ∈ dest ↔
          ∃ n x, eps_closure_of fa (arg_value source st) n
                 ∧ x ∈ input_set input ∧ transition fa n d x) ∧
  (memo_sound fa (memo st) →
   graph_wf (graph fa) → labels_valid (graph fa) →
   arg_value source st ⊆ dom (node (graph fa)) →
   ∃ dest st', move fa source input st = inr (dest, st')) ∧
  (∃ st', move ab_fragment (PyNode 1) (InSymbol 97) initial_tstate = inr ({[2]}, st')
          ∧ eps_succ ab_fragment 2 3).
Proof.
  split_and!.
  - intros dest st' (l & st0 & st1 & Has & Hcl & _ & _ & Hd)%move_inr. eauto 10.
  - intros Hs dest st' (l & st0 & st1 & Has & Hcl & _ & _ & Hd)%move_inr d.
    apply as_set_inr in Has as [Hm Hv].
    rewrite Hd. rewrite <- Hm in Hs.
    pose proof (get_epsilon_closures_semantic _ _ _ _ _ Hs Hcl) as Hsem.
    rewrite Hv in Hsem. split; intros (n & x & Hn & H); exists n, x;
      (split; [by apply Hsem | done]).
  - intros. by apply move_ok.
  - eexists. split; [vm_compute; reflexivity|].
    exists {[2; 3]}. split; [vm_compute; reflexivity | set_solver].
Qed.

Lemma move_closes_sources_only_witness :
  memo_sound ab_fragment (memo initial_tstate) ∧
  ∃ dest st',
    move ab_fragment (PyNode 1) (InSymbol 97) initial_tstate = inr (dest, st') ∧
    ∀ d, d ∈ dest ↔
         ∃ n x, eps_closure_of ab_fragment (arg_value (PyNode 1) initial_tstate) n
                ∧ x ∈ input_set (InSymbol 97) ∧ transition ab_fragment n d x.
Proof.
  split; [apply memo_sound_empty|].
  eexists _, _. split; [vm_compute; reflexivity|].
  eapply (proj1 (proj2 (move_closes_sources_only ab_fragment (PyNode 1)
                          (InSymbol 97) initial_tstate)) (memo_sound_empty _)).
  vm_compute. reflexivity.
Defined.

(** C10. Called with a set, [move] updates that set in place: after the
    call the caller's set holds the set returned by
    [get_epsilon_closures] for it, which contains its former members and,
    the memo table being sound, is their epsilon closure.  Called with a
    single node, [move] wraps it in a new set and leaves every set of the
    caller as it was. *)
Theorem move_updates_source_set fa input st :
  (∀ l dest st',
     move fa (PySet l) input st = inr (dest, st') →
     deref st l ⊆ deref st' l ∧
     (∃ st1, get_epsilon_closures fa (PySet l) st = inr (l, st1)
             ∧ deref st' l = deref st1 l) ∧
     (memo_sound fa (memo st) →
      ∀ v, v ∈ deref st' l ↔ eps_closure_of fa (deref st l) v)) ∧
  (∀ n dest st',
     move fa (PyNode n) input st = inr (dest, st') →
     ∀ l, l ∈ dom (heap st) → heap st' !! l = heap st !! l).
Proof.
  split.
  - intros l dest st' (l0 & st0 & st1 & [= <- <-] & Hcl & _ & Hh & _)%move_inr.
    assert (deref st' l = deref st1 l) as Hst'.
    { unfold deref at 1. by rewrite Hh, lookup_insert_eq. }
    rewrite Hst'. split_and!.
    + by apply get_epsilon_closures_inr in Hcl as (_ & _ & _ & ? & _).
    + eauto.
    + intros Hs. by eapply get_epsilon_closures_semantic.
  - intros n dest st' (l0 & st0 & st1 & [= <- <-] & Hcl & _ & Hh & _)%move_inr l Hl.
    assert (l ≠ fresh (dom (heap st))) as Hne.
    { intros ->. by apply is_fresh in Hl. }
    apply get_epsilon_closures_inr in Hcl as (_ & _ & Hother & _).
    rewrite Hh, lookup_insert_ne, Hother by done. simpl.
    by rewrite lookup_insert_ne.
Qed.

Lemma move_updates_source_set_witness :
  ∃ dest st',
    move epsilon_edge_fragment (PySet 1%positive) (InSymbol 97) one_set_tstate
      = inr (dest, st') ∧
    deref one_set_tstate 1%positive = {[1]} ∧
    deref one_set_tstate 1%positive ⊆ deref st' 1%positive ∧
    2 ∈ deref st' 1%positive.
Proof.
  eexists _, _. split; [vm_compute; reflexivity|]. split; [done|].
  split.
  - eapply (proj1 (move_updates_source_set epsilon_edge_fragment (InSymbol 97)
                     one_set_tstate) 1%positive).
    vm_compute. reflexivity.
  - eapply (proj1 (move_updates_source_set epsilon_edge_fragment (InSymbol 97)
                     one_set_tstate) 1%positive);
      [vm_compute; reflexivity | apply memo_sound_empty |].
    exists 1. split; [done|]. apply rtc_once. exists {[1; 2]}.
    split; [vm_compute; reflexivity | set_solver].
Defined.

(** ** Adding edges *)

Lemma adj_add_edge u v w G k :
  adj (add_edge u v w G) !! k =
  if decide ((u, v) = k) then Some (default [] (adj G !! (u, v)) ++ [w])
  else adj G !! k.
Proof. unfold add_edge. simpl. apply lookup_insert. Qed.

Lemma dom_node_add_edge u v w G :
  dom (node (add_edge u v w G)) = dom (node G) ∪ {[u; v]}.
Proof.
  unfold add_edge. simpl. rewrite !dom_union_L, !dom_singleton_L. set_solver.
Qed.

Lemma node_add_edge_lookup u v w G n attrs :
  node G !! n = Some attrs → node (add_edge u v w G) !! n = Some attrs.
Proof.
  intros H. unfold add_edge. simpl.
  apply lookup_union_Some_l, lookup_union_Some_l. done.
Qed.

Lemma graph_wf_empty : graph_wf empty_graph.
Proof. intros u v ws. simpl. by rewrite lookup_empty. Qed.

Lemma graph_wf_add_edge u v w G : graph_wf G → graph_wf (add_edge u v w G).
Proof.
  intros Hwf u' v' ws. rewrite adj_add_edge, dom_node_add_edge.
  case_decide as E.
  - injection E as <- <-. intros [= <-]. split_and!; [|set_solver..].
    by destruct (default [] _).
  - intros (? & ? & ?)%Hwf. split_and!; [done|set_solver..].
Qed.

(** ** The range fragment *)

Lemma range_loop_foldM s e ks : ∀ g cni,
  foldM (λ g char_ord,
      let* gate := get_node_index in
      let* g := lift (add_weighted_edges_from [(Some s, Some gate, W_epsilon)] g) in
      let* last := cni_minus_1 in
      let* inner := get_node_index in
      let* g := lift (add_weighted_edges_from [(Some last, Some inner, W_ord char_ord)] g) in
      let* last := cni_minus_1 in
      lift (add_weighted_edges_from [(Some last, Some e, W_epsilon)] g)) g ks cni
  = inr (range_loop s e ks cni g, cni + 2 * Z.of_nat (length ks)).
Proof.
  induction ks as [|k ks IH]; intros g cni; simpl.
  - unfold ret. do 2 f_equal. lia.
  - unfold bind at 1. unfold bind at 1. unfold get_node_index at 1.
    unfold bind, lift, cni_minus_1, get_node_index. simpl.
    fold (bind (S:=Z) (A:=MultiDiGraph) (B:=MultiDiGraph)).
    replace (cni + 1 - 1) with cni by lia.
    replace (cni + 1 + 1 - 1) with (cni + 1) by lia.
    fold (range_edges s e cni k g).
    replace (cni + 1 + 1) with (cni + 2) by lia.
    rewrite IH. do 2 f_equal. lia.
Qed.

Lemma adj_below_None G bound u v :
  adj_below G bound → bound ≤ u ∨ bound ≤ v → adj G !! (u, v) = None.
Proof.
  intros Hb Huv. destruct (adj G !! (u, v)) eqn:E; [|done].
  destruct (Hb u v) as [? ?]; [eauto | lia].
Qed.

Lemma adj_range_edges s e gate k G u v ws :
  s < gate → e < gate → adj_below G gate →
  adj (range_edges s e gate k G) !! (u, v) = Some ws
  ↔ adj G !! (u, v) = Some ws ∨ range_branch s e gate k u v ws.
Proof.
  intros Hs He Hb. unfold range_edges, range_branch. rewrite !adj_add_edge.
  rewrite (decide_False (P:=(s, gate) = (gate + 1, e))) by (intros [= ? ?]; lia).
  rewrite (decide_False (P:=(gate, gate + 1) = (gate + 1, e))) by (intros [= ? ?]; lia).
  rewrite (decide_False (P:=(s, gate) = (gate, gate + 1))) by (intros [= ? ?]; lia).
  rewrite !(adj_below_None G gate) by (done || lia). simpl.
  destruct (decide ((gate + 1, e) = (u, v))) as [[= <- <-]|N1].
  { split; [intros [= <-]; right; right; right; done|].
    intros [H|[(? & ? & ?)|[(? & ? & ?)|(_ & _ & ->)]]]; [|lia|lia|done].
    rewrite (adj_below_None G gate) in H by (done || lia). done. }
  destruct (decide ((gate, gate + 1) = (u, v))) as [[= <- <-]|N2].
  { split; [intros [= <-]; right; right; left; done|].
    intros [H|[(? & ? & ?)|[(_ & _ & ->)|(? & ? & ?)]]]; [|lia|done|lia].
    rewrite (adj_below_None G gate) in H by (done || lia). done. }
  destruct (decide ((s, gate) = (u, v))) as [[= <- <-]|N3].
  { split; [intros [= <-]; right; left; done|].
    intros [H|[(_ & _ & ->)|[(? & ? & ?)|(? & ? & ?)]]]; [|done|lia|lia].
    rewrite (adj_below_None G gate) in H by (done || lia). done. }
  split; [by left|].
  intros [H|[(-> & -> & _)|[(-> & -> & _)|(-> & -> & _)]]]; [done|congruence..].
Qed.

Lemma adj_below_range_edges s e gate k G :
  s < gate → e < gate → adj_below G gate →
  adj_below (range_edges s e gate k G) (gate + 2).
Proof.
  intros Hs He Hb u v [ws Hws].
  apply adj_range_edges in Hws; [|done..]. destruct Hws as [H|H].
  - destruct (Hb u v); [eauto | lia].
  - unfold range_branch in H. lia.
Qed.

Lemma adj_range_loop s e ks : ∀ gate G,
  s < gate → e < gate → adj_below G gate →
  ∀ u v ws,
    adj (range_loop s e ks gate G) !! (u, v) = Some ws
    ↔ adj G !! (u, v) = Some ws
      ∨ ∃ j k, ks !! j = Some k ∧ range_branch s e (gate + 2 * Z.of_nat j) k u v ws.
Proof.
  induction ks as [|k ks IH]; intros gate G Hs He Hb u v ws; simpl.
  - split; [by left|]. intros [?|(j & k & Hj & _)]; [done|]. by destruct j.
  - rewrite IH; [|lia..|by apply adj_below_range_edges].
    rewrite adj_range_edges by done. split.
    + intros [[?|Hbr]|(j & k' & Hj & Hbr)]; [by left|right..].
      * exists 0%nat, k. split; [done|]. by replace (gate + 2 * Z.of_nat 0) with gate by lia.
      * exists (S j), k'. split; [done|].
        by replace (gate + 2 * Z.of_nat (S j)) with (gate + 2 + 2 * Z.of_nat j) by lia.
    + intros [?|(j & k' & Hj & Hbr)]; [left; by left|].
      destruct j as [|j]; simpl in Hj.
      * injection Hj as ->. left. right.
        by replace (gate + 2 * Z.of_nat 0) with gate in Hbr by lia.
      * right. exists j, k'. split; [done|].
        by replace (gate + 2 * Z.of_nat (S j)) with (gate + 2 + 2 * Z.of_nat j) in Hbr by lia.
Qed.

Lemma graph_wf_range_loop s e ks : ∀ gate G,
  graph_wf G → graph_wf (range_loop s e ks gate G).
Proof.
  induction ks as [|k ks IH]; intros gate G Hwf; simpl; [done|].
  apply IH. unfold range_edges. by do 3 apply graph_wf_add_edge.
Qed.

Lemma adj_range_fragment cni a b u v ws :
  adj (graph (range_fragment cni a b)) !! (u, v) = Some ws
  ↔ ∃ k, a ≤ k ≤ b ∧ range_branch cni (cni + 1) (range_gate cni a k) k u v ws.
Proof.
  unfold range_fragment, range_gate. simpl. rewrite adj_range_loop; [|lia..|].
  2:{ intros u' v' [ws' H]. simpl in H. by rewrite lookup_empty in H. }
  simpl. rewrite lookup_empty. split.
  - intros [?|(j & k & Hj & Hbr)]; [done|].
    apply lookup_seqZ in Hj as [-> Hj]. exists (a + Z.of_nat j). split; [lia|].
    by replace (cni + 2 + 2 * (a + Z.of_nat j - a)) with (cni + 2 + 2 * Z.of_nat j) by lia.
  - intros (k & Hk & Hbr). right. exists (Z.to_nat (k - a)), k. split.
    + apply lookup_seqZ. lia.
    + by replace (cni + 2 + 2 * Z.of_nat (Z.to_nat (k - a))) with (cni + 2 + 2 * (k - a)) by lia.
Qed.

Lemma graph_wf_range_fragment cni a b : graph_wf (graph (range_fragment cni a b)).
Proof. apply graph_wf_range_loop, graph_wf_empty. Qed.

Lemma add_nodes_in_range_new a b cni :
  add_nodes_in_range NFA_new a b cni
  = inr (range_fragment cni a b, cni + 2 + 2 * Z.of_nat (Z.to_nat (b + 1 - a))).
Proof.
  unfold add_nodes_in_range.
  apply bind_inr. exists cni, (cni + 1). split; [reflexivity|].
  apply bind_inr. exists (cni + 1), (cni + 1 + 1). split; [reflexivity|].
  apply bind_inr. eexists _, _. split; [apply range_loop_foldM|].
  unfold ret, range_fragment. rewrite length_seqZ. simpl.
  replace (cni + 1 + 1) with (cni + 2) by lia. reflexivity.
Qed.

Lemma from_character_or_range_new a b cni :
  cni + 1 ≠ 0 →
  from_character_or_range NFA_new [a; ch_minus; b] cni =
  if a <? b
  then inr (range_fragment cni a b, cni + 2 + 2 * (b + 1 - a))
  else inl (ValueError msg_range).
Proof.
  intros Hc. unfold from_character_or_range.
  rewrite bool_decide_eq_true_2 by set_solver.
  destruct (Z.ltb_spec a b); [|done].
  unfold bind. rewrite add_nodes_in_range_new. simpl.
  destruct (Z.eqb_spec (cni + 1) 0); [done|]. simpl. unfold ret.
  do 2 f_equal. lia.
Qed.

Lemma epsilon_closure_body_dom fa n s :
  epsilon_closure_body fa n = inr s → n ∈ dom (node (graph fa)).
Proof.
  unfold epsilon_closure_body, neighbors. by destruct (decide _).
Qed.

Lemma eps_succ_wf fa u v :
  graph_wf (graph fa) →
  eps_succ fa u v ↔
  u ∈ dom (node (graph fa)) ∧
  (v = u ∨ ∃ ws, adj (graph fa) !! (u, v) = Some (W_epsilon :: ws)).
Proof.
  intros Hwf. split.
  - intros (s & Hb & Hv). split; [by eapply epsilon_closure_body_dom|].
    by apply (epsilon_closure_body_spec _ _ _ Hb).
  - intros [Hu Hv]. destruct (epsilon_closure_body_inr fa u Hwf Hu) as [s Hb].
    exists s. split; [done|]. by apply (epsilon_closure_body_spec _ _ _ Hb).
Qed.

Section RangeFragment.
Variables cni a b : Z.

Lemma range_eps_succ u v :
  eps_succ (range_fragment cni a b) u v →
  v = u ∨ (u = cni ∧ ∃ k, a ≤ k ≤ b ∧ v = range_gate cni a k)
        ∨ (∃ k, a ≤ k ≤ b ∧ u = range_gate cni a k + 1 ∧ v = cni + 1).
Proof.
  intros [_ [->|[ws Hws]]]%eps_succ_wf; [by left| |apply graph_wf_range_fragment].
  apply adj_range_fragment in Hws as (k & Hk & [(-> & -> & _)|[(_ & _ & [=])|(-> & -> & _)]]).
  - right. left. eauto.
  - right. right. eauto.
Qed.

Lemma range_eps_succ_start k :
  a ≤ k ≤ b → eps_succ (range_fragment cni a b) cni (range_gate cni a k).
Proof.
  intros Hk.
  assert (adj (graph (range_fragment cni a b)) !! (cni, range_gate cni a k) = Some [W_epsilon]) as Hadj.
  { apply adj_range_fragment. exists k. split; [done|]. by left. }
  apply eps_succ_wf; [apply graph_wf_range_fragment|]. split; [|right; eauto].
  by apply graph_wf_range_fragment in Hadj as (_ & ? & _).
Qed.

Lemma range_eps_succ_end k :
  a ≤ k ≤ b → eps_succ (range_fragment cni a b) (range_gate cni a k + 1) (cni + 1).
Proof.
  intros Hk.
  assert (adj (graph (range_fragment cni a b)) !! (range_gate cni a k + 1, cni + 1) = Some [W_epsilon]) as Hadj.
  { apply adj_range_fragment. exists k. split; [done|]. right. by right. }
  apply eps_succ_wf; [apply graph_wf_range_fragment|]. split; [|right; eauto].
  by apply graph_wf_range_fragment in Hadj as (_ & ? & _).
Qed.

Lemma range_closure_start n :
  rtc (eps_succ (range_fragment cni a b)) cni n → n = cni ∨ ∃ k, a ≤ k ≤ b ∧ n = range_gate cni a k.
Proof.
  revert n. apply rtc_ind_r; [by left|]. intros y z Hrtc Hyz IH.
  apply range_eps_succ in Hyz as [->|[(-> & k & Hk & ->)|(k & Hk & -> & ->)]];
    [done|right; eauto|].
  unfold range_gate in IH. destruct IH as [?|(k' & Hk' & ?)]; lia.
Qed.

Lemma range_closure_gate k n :
  a ≤ k ≤ b → rtc (eps_succ (range_fragment cni a b)) (range_gate cni a k) n → n = range_gate cni a k.
Proof.
  intros Hk. revert n. apply rtc_ind_r; [done|]. intros y z Hrtc Hyz IH. subst y.
  apply range_eps_succ in Hyz as [->|[(? & _)|(k' & Hk' & ? & _)]]; [done|..];
    unfold range_gate in *; lia.
Qed.

Lemma range_transition n d x :
  valid_char a → valid_char b →
  transition (range_fragment cni a b) n d x →
  (n = cni ∧ ∃ k, a ≤ k ≤ b ∧ d = range_gate cni a k) ∨
  (a ≤ x ≤ b ∧ n = range_gate cni a x ∧ d = range_gate cni a x + 1) ∨
  (∃ k, a ≤ k ≤ b ∧ n = range_gate cni a k + 1).
Proof.
  intros Ha Hb (ws & w & Hws & Hw & Hm).
  apply adj_range_fragment in Hws as (k & Hk & [(-> & -> & _)|[(-> & -> & ->)|(-> & _)]]).
  - left. eauto.
  - right. left. apply list_elem_of_singleton in Hw as ->.
    unfold label_matches in Hm. simpl in Hm.
    rewrite chr_valid in Hm by (unfold valid_char in *; lia).
    injection Hm as Hm%weight_matches_singleton. subst x. done.
  - right. right. eauto.
Qed.

Lemma range_accepts_symbol x :
  valid_char a → valid_char b →
  accepts_symbol (range_fragment cni a b) x ↔ a ≤ x ≤ b.
Proof.
  intros Ha Hb. split.
  - intros (s & e & n & d & [= <-] & [= <-] & (u & ->%elem_of_singleton & Hn)
            & Ht & (u' & ->%elem_of_singleton & He)).
    apply range_closure_start in Hn.
    apply range_transition in Ht as [(-> & k & Hk & ->)|[(Hx & -> & ->)|(k & Hk & ->)]];
      [|done| |done..].
    + apply range_closure_gate in He; [|done]. unfold range_gate in He. lia.
    + unfold range_gate in Hn. destruct Hn as [?|(k' & ? & ?)]; lia.
  - intros Hx. exists cni, (cni + 1), (range_gate cni a x), (range_gate cni a x + 1).
    split_and!; [done..| | |].
    + exists cni. split; [set_solver|]. by apply rtc_once, range_eps_succ_start.
    + exists [W_ord x], (W_ord x). split_and!.
      * apply adj_range_fragment. exists x. split; [done|]. right. by left.
      * by apply list_elem_of_singleton.
      * unfold label_matches. simpl.
        rewrite chr_valid by (unfold valid_char in *; lia).
        f_equal. by apply weight_matches_singleton.
    + eexists. split; [by apply elem_of_singleton|]. by apply rtc_once, range_eps_succ_end.
Qed.

Lemma range_rejects_empty : ¬ accepts_empty (range_fragment cni a b).
Proof.
  intros (s & e & [= <-] & [= <-] & (u & ->%elem_of_singleton & Hn)).
  apply range_closure_start in Hn. unfold range_gate in Hn.
  destruct Hn as [?|(k' & ? & ?)]; lia.
Qed.

Lemma range_transition_label n d x :
  transition (range_fragment cni a b) n d x →
  (n = cni ∧ x = epsilon ∧ ∃ k, a ≤ k ≤ b ∧ d = range_gate cni a k) ∨
  (∃ k, a ≤ k ≤ b ∧ n = range_gate cni a k ∧ d = range_gate cni a k + 1) ∨
  (x = epsilon ∧ d = cni + 1 ∧ ∃ k, a ≤ k ≤ b ∧ n = range_gate cni a k + 1).
Proof.
  intros (ws & w & Hws & Hw & Hm).
  assert (w = W_epsilon → x = epsilon) as Heps.
  { intros ->. unfold label_matches in Hm. simpl in Hm.
    by injection Hm as Hm%weight_matches_singleton. }
  apply adj_range_fragment in Hws as (k & Hk & [(-> & -> & ->)|[(-> & -> & ->)|(-> & -> & ->)]]).
  - left. apply list_elem_of_singleton in Hw. split_and!; eauto.
  - right. left. eauto.
  - right. right. apply list_elem_of_singleton in Hw. split_and!; eauto.
Qed.

Lemma range_closure_inner k n :
  a ≤ k ≤ b →
  rtc (eps_succ (range_fragment cni a b)) (range_gate cni a k + 1) n →
  n = range_gate cni a k + 1 ∨ n = cni + 1.
Proof.
  intros Hk. revert n. apply rtc_ind_r; [by left|]. intros y z Hrtc Hyz IH.
  apply range_eps_succ in Hyz as [->|[(-> & _)|(k' & Hk' & _ & ->)]];
    [done| |by right].
  unfold range_gate in IH. lia.
Qed.

Lemma range_closure_end n :
  rtc (eps_succ (range_fragment cni a b)) (cni + 1) n → n = cni + 1.
Proof.
  revert n. apply rtc_ind_r; [done|]. intros y z Hrtc Hyz ->.
  apply range_eps_succ in Hyz as [->|[(? & _)|(k' & Hk' & ? & _)]]; [done|..];
    unfold range_gate in *; lia.
Qed.

(** An input without the character of the epsilon marker is accepted iff
    it is one character of the range. *)
Lemma range_accepts_input xs :
  valid_char a → valid_char b → epsilon ∉ xs →
  accepts_input (range_fragment cni a b) xs ↔ ∃ k, xs = [k] ∧ a ≤ k ≤ b.
Proof.
  intros Ha Hb Hxs. split.
  - intros (s & e & [= <-] & [= <-] & Hr).
    inversion Hr as [u v Hrtc|u n d x xs' v Hrtc Ht Hr']; subst.
    { apply range_closure_start in Hrtc. unfold range_gate in Hrtc.
      destruct Hrtc as [?|(k' & ? & ?)]; lia. }
    assert (x ≠ epsilon) as Hx by (intros ->; apply Hxs; left).
    apply range_closure_start in Hrtc.
    apply range_transition_label in Ht as Ht'.
    destruct Ht' as [(_ & ? & _)|[(k & Hk & -> & ->)|(? & _)]]; [done| |done].
    assert (x = k) as ->.
    { destruct Ht as (ws & w & Hws & Hw & Hm).
      apply adj_range_fragment in Hws as (k' & Hk' & [(? & _)|[(? & _ & ->)|(? & _)]]);
        unfold range_gate in *; try lia.
      assert (k' = k) as -> by lia.
      apply list_elem_of_singleton in Hw as ->.
      unfold label_matches in Hm. simpl in Hm.
      rewrite chr_valid in Hm by (unfold valid_char in *; lia).
      by injection Hm as Hm%weight_matches_singleton. }
    exists k. split; [|done]. f_equal.
    inversion Hr' as [|u n d y ys v Hrtc' Ht' Hr'']; subst; [done|]. exfalso.
    assert (y ≠ epsilon) as Hy by (intros ->; apply Hxs; right; left).
    apply range_closure_inner in Hrtc'; [|done].
    apply range_transition_label in Ht' as [(? & _)|[(k' & Hk' & ? & _)|(? & _)]];
      [|unfold range_gate in *; destruct Hrtc'; lia|done].
    unfold range_gate in *. destruct Hrtc'; lia.
  - intros (k & -> & Hk). exists cni, (cni + 1). split_and!; [done..|].
    apply (reach_cons _ _ (range_gate cni a k) (range_gate cni a k + 1)).
    + by apply rtc_once, range_eps_succ_start.
    + exists [W_ord k], (W_ord k). split_and!.
      * apply adj_range_fragment. exists k. split; [done|]. right. by left.
      * by apply list_elem_of_singleton.
      * unfold label_matches. simpl.
        rewrite chr_valid by (unfold valid_char in *; lia).
        f_equal. by apply weight_matches_singleton.
    + apply reach_nil. by apply rtc_once, range_eps_succ_end.
Qed.

End RangeFragment.

(** C6 (as amended). Range construction fails with the [ValueError] of
    the range format iff the ordinal of [a] is not below that of [b];
    otherwise it returns the fragment whose edges are, for each character
    [k] from [a] to [b], the branch
    [start --epsilon--> gate_k --k--> gate_k + 1 --epsilon--> end]
    through two nodes of its own, all branches between the same start and
    end; the fragment accepts a one-symbol input iff the symbol is a
    character from [a] to [b], it does not accept the empty input, and
    among the inputs that do not hold the character of the epsilon marker
    it accepts exactly the one-character inputs from [a] to [b]. *)
Theorem range_construction a b cni :
  1 ≤ cni →
  (b ≤ a →
   from_character_or_range NFA_new [a; ch_minus; b] cni = inl (ValueError msg_range)) ∧
  (a < b →
   from_character_or_range NFA_new [a; ch_minus; b] cni
     = inr (range_fragment cni a b, cni + 2 + 2 * (b + 1 - a)) ∧
   start_node (range_fragment cni a b) = Some cni ∧
   end_node (range_fragment cni a b) = Some (cni + 1) ∧
   (∀ u v ws,
      adj (graph (range_fragment cni a b)) !! (u, v) = Some ws
      ↔ ∃ k, a ≤ k ≤ b ∧ range_branch cni (cni + 1) (range_gate cni a k) k u v ws) ∧
   (valid_char a → valid_char b →
    (∀ x, accepts_symbol (range_fragment cni a b) x ↔ a ≤ x ≤ b) ∧
    ¬ accepts_empty (range_fragment cni a b) ∧
    (∀ xs, epsilon ∉ xs →
           accepts_input (range_fragment cni a b) xs ↔ ∃ k, xs = [k] ∧ a ≤ k ≤ b))).
Proof.
  intros Hc. split.
  - intros Hba. rewrite from_character_or_range_new by lia.
    destruct (Z.ltb_spec a b); [lia | done].
  - intros Hab. split_and!; [|done..| |].
    + rewrite from_character_or_range_new by lia.
      destruct (Z.ltb_spec a b); [done | lia].
    + apply adj_range_fragment.
    + intros Ha Hb. split_and!.
      * intros x. by apply range_accepts_symbol.
      * apply range_rejects_empty.
      * intros xs Hxs. by apply range_accepts_input.
Qed.

Lemma range_construction_witness :
  1 ≤ 1 ∧ 97 < 99 ∧ valid_char 97 ∧ valid_char 99 ∧
  from_character_or_range NFA_new [97; ch_minus; 99] 1
    = inr (range_fragment 1 97 99, 9) ∧
  (accepts_symbol (range_fragment 1 97 99) 98 ↔ 97 ≤ 98 ≤ 99) ∧
  (accepts_input (range_fragment 1 97 99) [98; 98] ↔ ∃ k, [98; 98] = [k] ∧ 97 ≤ k ≤ 99).
Proof.
  assert (valid_char 97 ∧ valid_char 99) as [Ha Hb] by (unfold valid_char; lia).
  split; [lia|]. split; [lia|]. split; [done|]. split; [done|].
  destruct (proj2 (range_construction 97 99 1 ltac:(lia)) ltac:(lia))
    as (Hr & _ & _ & _ & Hacc).
  destruct (Hacc Ha Hb) as (Hsym & _ & Hin).
  split; [exact Hr|]. split; [apply Hsym|]. apply Hin.
  unfold epsilon. intros [[=]|[[=]|[]%elem_of_nil]%elem_of_cons]%elem_of_cons.
Defined.

(** ** The nodes of the compiled fragments *)

Lemma nodes_in_weaken lo hi lo' hi' G :
  lo' ≤ lo → hi ≤ hi' → nodes_in lo hi G → nodes_in lo' hi' G.
Proof. intros ? ? H n Hn. apply H in Hn. lia. Qed.

Lemma frag_ok_weaken lo hi lo' hi' f :
  lo' ≤ lo → hi ≤ hi' → frag_ok lo hi f → frag_ok lo' hi' f.
Proof.
  intros ? ? (s & e & Hs & He & ? & ? & ? & Hn). exists s, e.
  split_and!; try done; try lia. by eapply nodes_in_weaken.
Qed.

Lemma operands_ok_weaken lo hi lo' hi' operands :
  lo' ≤ lo → hi ≤ hi' → operands_ok lo hi operands → operands_ok lo' hi' operands.
Proof. intros ? ? H f Hf. eapply frag_ok_weaken; eauto. Qed.

Lemma operands_ok_nil lo hi : operands_ok lo hi [].
Proof. intros f Hf. by apply elem_of_nil in Hf. Qed.

Lemma operands_ok_cons lo hi o operands :
  (∀ f, o = Some f → frag_ok lo hi f) → operands_ok lo hi operands →
  operands_ok lo hi (o :: operands).
Proof. intros Ho Hops f [<-|Hf]%elem_of_cons; auto. Qed.

Lemma operands_ok_inv lo hi o operands :
  operands_ok lo hi (o :: operands) →
  (∀ f, o = Some f → frag_ok lo hi f) ∧ operands_ok lo hi operands.
Proof.
  intros H. split.
  - intros f ->. apply H. left.
  - intros f Hf. apply H. by right.
Qed.

Lemma nodes_in_empty lo hi : nodes_in lo hi empty_graph.
Proof. intros n. simpl. rewrite dom_empty_L. set_solver. Qed.

Lemma nodes_in_add_edge lo hi u v w G :
  lo ≤ u < hi → lo ≤ v < hi → nodes_in lo hi G → nodes_in lo hi (add_edge u v w G).
Proof.
  intros Hu Hv HG n. rewrite dom_node_add_edge.
  intros [Hn|[->%elem_of_singleton| ->%elem_of_singleton]%elem_of_union]%elem_of_union;
    auto.
Qed.

Lemma dom_node_compose G H :
  dom (node (compose G H)) = dom (node G) ∪ dom (node H).
Proof. unfold compose. simpl. rewrite dom_union_L. set_solver. Qed.

Lemma nodes_in_compose lo hi G H :
  nodes_in lo hi G → nodes_in lo hi H → nodes_in lo hi (compose G H).
Proof.
  intros HG HH n. rewrite dom_node_compose. intros [?|?]%elem_of_union; auto.
Qed.

Lemma foldM_invariant {S A B} (I : B → S → Prop) (f : B → A → ST S B) l :
  (∀ b a s b' s', I b s → f b a s = inr (b', s') → I b' s') →
  ∀ b s b' s', I b s → foldM f b l s = inr (b', s') → I b' s'.
Proof.
  intros Hf. induction l as [|a l IH]; intros b s b' s' HI; simpl.
  - by intros [= <- <-].
  - rewrite bind_inr. intros (b1 & s1 & H1 & H2). eauto.
Qed.

Lemma truthy_Some n : n ≠ 0 → truthy (Some n) = true.
Proof. intros H. simpl. by destruct (Z.eqb_spec n 0). Qed.

Lemma concatenate_node_new w cni :
  concatenate_node NFA_new w cni =
  inr ({| start_node := Some cni; end_node := Some (cni + 1);
          graph := add_edge cni (cni + 1) (W_repr w) empty_graph |}, cni + 1 + 1).
Proof. reflexivity. Qed.

Lemma dom_node_range_loop_mono s e ks : ∀ gate G,
  dom (node G) ⊆ dom (node (range_loop s e ks gate G)).
Proof.
  induction ks as [|k ks IH]; intros gate G; simpl; [done|].
  etrans; [|apply IH]. unfold range_edges. rewrite !dom_node_add_edge. set_solver.
Qed.

Lemma nodes_in_range_loop s e lo ks : ∀ gate G,
  lo ≤ s < gate → lo ≤ e < gate → nodes_in lo gate G →
  nodes_in lo (gate + 2 * Z.of_nat (length ks)) (range_loop s e ks gate G).
Proof.
  induction ks as [|k ks IH]; intros gate G Hs He HG; simpl length.
  - simpl. eapply nodes_in_weaken; [| |exact HG]; lia.
  - replace (gate + 2 * Z.of_nat (S (length ks)))
      with (gate + 2 + 2 * Z.of_nat (length ks)) by lia.
    simpl. apply IH; [lia..|]. unfold range_edges.
    repeat apply nodes_in_add_edge; try lia.
    eapply nodes_in_weaken; [| |exact HG]; lia.
Qed.

Lemma frag_ok_range_fragment cni a b :
  a < b →
  frag_ok cni (cni + 2 + 2 * Z.of_nat (Z.to_nat (b + 1 - a))) (range_fragment cni a b).
Proof.
  intros Hab. exists cni, (cni + 1). split_and!; try done; try lia.
  - unfold range_fragment. simpl. rewrite seqZ_cons by lia. simpl.
    apply dom_node_range_loop_mono. unfold range_edges.
    rewrite !dom_node_add_edge. set_solver.
  - unfold range_fragment. simpl. rewrite <- (length_seqZ a).
    apply nodes_in_range_loop; [lia..|].
    eapply nodes_in_weaken; [| |apply (nodes_in_empty cni cni)]; lia.
Qed.

Lemma from_character_or_range_ok regex cni r cni' :
  1 ≤ cni →
  from_character_or_range NFA_new regex cni = inr (r, cni') →
  cni ≤ cni' ∧ frag_ok cni cni' r.
Proof.
  intros Hc. unfold from_character_or_range. rewrite bind_inr.
  intros (f & c1 & Hf & Hend).
  assert (c1 = cni' ∧ r = f ∧ cni ≤ c1 ∧ frag_ok cni c1 f) as (-> & -> & ? & ?); [|done].
  assert (cni ≤ c1 ∧ frag_ok cni c1 f) as [Hle Hok].
  { assert (∀ w, concatenate_node NFA_new w cni = inr (f, c1) →
                 cni ≤ c1 ∧ frag_ok cni c1 f) as Hlit.
    { intros w. rewrite concatenate_node_new. intros [= <- <-]. split; [lia|].
      exists cni, (cni + 1). split_and!; try done; try lia.
      - simpl. rewrite dom_union_L, !dom_singleton_L. set_solver.
      - apply nodes_in_add_edge; [lia..|].
        eapply nodes_in_weaken; [| |apply (nodes_in_empty cni cni)]; lia. }
    destruct regex as [|a [|m [|b [|]]]]; eauto.
    destruct (bool_decide _); eauto.
    destruct (Z.ltb_spec a b); [|discriminate].
    rewrite add_nodes_in_range_new in Hf. injection Hf as <- <-.
    split; [lia|]. by apply frag_ok_range_fragment. }
  destruct Hok as (s & e & Hs & He & ? & ? & ? & ?).
  rewrite He, truthy_Some in Hend by lia. simpl in Hend.
  injection Hend as <- <-. split_and!; try done. exists s, e. done.
Qed.

Lemma concatenate_ok lo hi A B r :
  1 ≤ lo → frag_ok lo hi A → frag_ok lo hi B →
  concatenate A B = inr r → frag_ok lo hi r.
Proof.
  intros Hlo (sA & eA & HsA & HeA & ? & ? & ? & HnA) (sB & eB & HsB & HeB & ? & ? & ? & HnB).
  unfold concatenate. rewrite HsA, HeA, HsB, !truthy_Some by lia.
  cbn [andb add_weighted_edges_from].
  intros [= <-]. exists sA, eB. cbn [start_node end_node graph].
  split_and!; try done; try lia.
  - rewrite dom_node_compose. set_solver.
  - apply nodes_in_compose; [|done]. by apply nodes_in_add_edge.
Qed.

Lemma from_simple_regex_ok regex cni f cni' :
  1 ≤ cni →
  from_simple_regex regex cni = inr (Some f, cni') →
  cni ≤ cni' ∧ frag_ok cni cni' f.
Proof.
  intros Hc. unfold from_simple_regex.
  destruct (findall_simple regex) as [|m0 rest]; [discriminate|].
  rewrite bind_inr. intros (f0 & c0 & H0 & H).
  apply from_character_or_range_ok in H0 as [Hle0 Hok0]; [|done].
  apply bind_inr in H as (f1 & c1 & Hfold & [= <- <-]).
  eapply (foldM_invariant (λ nfa c, cni ≤ c ∧ frag_ok cni c nfa)) in Hfold; [done| |done].
  intros nfa m c nfa' c' [Hle Hok]. rewrite bind_inr.
  intros (other & c2 & Hother & [Hcat ->]%lift_inr).
  apply from_character_or_range_ok in Hother as [Hle2 Hok2]; [|lia].
  split; [lia|]. eapply concatenate_ok; [exact Hc| | |exact Hcat].
  - eapply frag_ok_weaken; [| |exact Hok]; lia.
  - eapply frag_ok_weaken; [| |exact Hok2]; lia.
Qed.

Lemma union_inr A B cni sA eA sB eB :
  start_node A = Some sA → end_node A = Some eA →
  start_node B = Some sB → end_node B = Some eB →
  union A B cni =
  inr ({| start_node := Some cni; end_node := Some (cni + 1);
          graph := compose
                     (add_edge eB (cni + 1) W_epsilon
                        (add_edge eA (cni + 1) W_epsilon
                           (add_edge cni sB W_epsilon
                              (add_edge cni sA W_epsilon (graph A)))))
                     (graph B) |}, cni + 1 + 1).
Proof. intros HsA HeA HsB HeB. unfold union. rewrite HsA, HeA, HsB, HeB. reflexivity. Qed.

Lemma union_ok lo A B cni r cni' :
  lo ≤ cni → frag_ok lo cni A → frag_ok lo cni B →
  union A B cni = inr (r, cni') →
  cni ≤ cni' ∧ frag_ok lo cni' r.
Proof.
  intros Hlo (sA & eA & HsA & HeA & ? & ? & ? & HnA) (sB & eB & HsB & HeB & ? & ? & ? & HnB).
  rewrite (union_inr A B cni sA eA sB eB) by done. intros [= <- <-].
  split; [lia|]. exists cni, (cni + 1). cbn [start_node end_node graph].
  split_and!; try done; try lia.
  - rewrite dom_node_compose, !dom_node_add_edge. set_solver.
  - apply nodes_in_compose; [|eapply nodes_in_weaken; [| |exact HnB]; lia].
    repeat apply nodes_in_add_edge; try lia.
    eapply nodes_in_weaken; [| |exact HnA]; lia.
Qed.

Lemma kleene_closure_ok lo A cni r cni' :
  lo ≤ cni → frag_ok lo cni A →
  kleene_closure A cni = inr (r, cni') →
  cni ≤ cni' ∧ frag_ok lo cni' r.
Proof.
  intros Hlo (sA & eA & HsA & HeA & ? & ? & ? & HnA).
  unfold kleene_closure. rewrite HsA, HeA. intros [= <- <-].
  split; [lia|]. exists cni, (cni + 1). cbn [start_node end_node graph].
  split_and!; try done; try lia.
  - rewrite !dom_node_add_edge. set_solver.
  - repeat apply nodes_in_add_edge; try lia.
    eapply nodes_in_weaken; [| |exact HnA]; lia.
Qed.

Lemma plus_ok lo A cni r cni' :
  frag_ok lo cni A →
  plus A cni = inr (r, cni') →
  cni ≤ cni' ∧ frag_ok lo cni' r.
Proof.
  intros (sA & eA & HsA & HeA & ? & ? & ? & HnA).
  unfold plus. rewrite HsA, HeA. intros [= <- <-].
  split; [lia|]. exists sA, eA. cbn [start_node end_node graph].
  split_and!; try done; try lia.
  - rewrite !dom_node_add_edge. set_solver.
  - by apply nodes_in_add_edge.
Qed.

Lemma empty_ok cni r cni' :
  empty cni = inr (r, cni') → cni ≤ cni' ∧ frag_ok cni cni' r.
Proof.
  intros [= <- <-]. split; [lia|]. exists cni, (cni + 1). simpl.
  split_and!; try done; try lia.
  - rewrite dom_union_L, !dom_singleton_L. set_solver.
  - apply (nodes_in_add_edge _ _ _ _ _ empty_graph); [lia..|].
    eapply nodes_in_weaken; [| |apply (nodes_in_empty cni cni)]; lia.
Qed.

Lemma evaluate_operation_ok lo operator operands cni operands' cni' :
  1 ≤ lo → lo ≤ cni → operands_ok lo cni operands →
  evaluate_operation operator operands cni = inr (operands', cni') →
  cni ≤ cni' ∧ operands_ok lo cni' operands'.
Proof.
  intros Hlo Hc Hops. unfold evaluate_operation.
  destruct (operator =? ch_amp).
  { destruct operands as [|[second|] [|[first|] rest]]; try discriminate.
    simpl. rewrite bind_inr. intros (r & c1 & [Hcat ->]%lift_inr & [= <- <-]).
    apply operands_ok_inv in Hops as [Hs [Hf Hrest]%operands_ok_inv].
    split; [lia|]. apply operands_ok_cons; [|done].
    intros f [= <-].
    eapply concatenate_ok; [exact Hlo|by apply Hf|by apply Hs|exact Hcat]. }
  destruct (operator =? ch_pipe).
  { destruct operands as [|[second|] [|[first|] rest]]; try discriminate.
    simpl. rewrite bind_inr. intros (r & c1 & Hu & [= <- <-]).
    apply operands_ok_inv in Hops as [Hs [Hf Hrest]%operands_ok_inv].
    apply union_ok with (lo := lo) in Hu as [Hle Hok];
      [|done|by apply Hf|by apply Hs].
    split; [lia|]. apply operands_ok_cons; [by intros f [= <-]|].
    eapply operands_ok_weaken; [| |exact Hrest]; lia. }
  destruct (operator =? ch_star).
  { destruct operands as [|[f|] rest]; try discriminate.
    simpl. rewrite bind_inr. intros ([f' rest'] & c0 & [= <- <- <-] & H).
    apply bind_inr in H as (r & c1 & Hk & [= <- <-]).
    apply operands_ok_inv in Hops as [Hf Hrest].
    apply kleene_closure_ok with (lo := lo) in Hk as [Hle Hok];
      [|done|by apply Hf].
    split; [lia|]. apply operands_ok_cons; [by intros g [= <-]|].
    eapply operands_ok_weaken; [| |exact Hrest]; lia. }
  destruct (operator =? ch_plus).
  { destruct operands as [|[f|] rest]; try discriminate.
    simpl. rewrite bind_inr. intros ([f' rest'] & c0 & [= <- <- <-] & H).
    apply bind_inr in H as (r & c1 & Hk & [= <- <-]).
    apply operands_ok_inv in Hops as [Hf Hrest].
    apply plus_ok with (lo := lo) in Hk as [Hle Hok]; [|by apply Hf].
    split; [lia|]. apply operands_ok_cons; [by intros g [= <-]|].
    eapply operands_ok_weaken; [| |exact Hrest]; lia. }
  intros [= <- <-]. split; [lia | done].
Qed.

Section CompilerInvariant.
Variable priority : Z → Z.
Variable lo : Z.
Hypothesis lo_pos : 1 ≤ lo.

Lemma pop_and_evaluate_ok c operators : ∀ operands cni operands' operators' cni',
  lo ≤ cni → operands_ok lo cni operands →
  pop_and_evaluate priority c operators operands cni
    = inr ((operands', operators'), cni') →
  cni ≤ cni' ∧ operands_ok lo cni' operands'.
Proof.
  induction operators as [|o os IH]; intros operands cni operands' operators' cni' Hc Hops;
    simpl.
  - intros [= <- <- <-]. split; [lia | done].
  - destruct (priority c <=? priority o).
    + rewrite bind_inr. intros (ops1 & c1 & He & H).
      apply evaluate_operation_ok with (lo := lo) in He as [Hle Hok]; [|done..].
      apply IH in H as [Hle' Hok']; [|lia|done]. split; [lia | done].
    + intros [= <- <- <-]. split; [lia | done].
Qed.

Lemma scan_operator_ok c operands operators cni operands' operators' cni' :
  lo ≤ cni → operands_ok lo cni operands →
  scan_operator priority c operands operators cni
    = inr ((operands', operators'), cni') →
  cni ≤ cni' ∧ operands_ok lo cni' operands'.
Proof.
  intros Hc Hops. unfold scan_operator. destruct (peek operators) as [top|].
  - destruct (priority c >=? priority top).
    + intros [= <- <- <-]. split; [lia | done].
    + rewrite bind_inr. intros ([ops1 ors1] & c1 & H & [= <- <- <-]).
      by eapply pop_and_evaluate_ok.
  - intros [= <- <- <-]. split; [lia | done].
Qed.

Lemma drain_ok operators : ∀ operands cni operands' cni',
  lo ≤ cni → operands_ok lo cni operands →
  drain operators operands cni = inr (operands', cni') →
  cni ≤ cni' ∧ operands_ok lo cni' operands'.
Proof.
  induction operators as [|o os IH]; intros operands cni operands' cni' Hc Hops; simpl.
  - intros [= <- <-]. split; [lia | done].
  - rewrite bind_inr. intros (ops1 & c1 & He & H).
    apply evaluate_operation_ok with (lo := lo) in He as [Hle Hok]; [|done..].
    apply IH in H as [Hle' Hok']; [|lia|done]. split; [lia | done].
Qed.

Lemma final_pop_Some operands f : final_pop operands = Some f → Some f ∈ operands.
Proof.
  destruct operands as [|o rest]; [discriminate|]. unfold final_pop. simpl.
  intros Ho. subst o. left.
Qed.

Lemma push_operand_ok cni cni' operands (o : option NFA) :
  lo ≤ cni → cni ≤ cni' → operands_ok lo cni operands →
  (∀ f, o = Some f → frag_ok cni cni' f) →
  operands_ok lo cni' (push o operands).
Proof.
  intros Hc Hle Hops Ho. apply operands_ok_cons.
  - intros f Hf. eapply frag_ok_weaken; [| |by apply Ho]; lia.
  - eapply operands_ok_weaken; [| |exact Hops]; lia.
Qed.

Lemma from_regex_loop_ok fuel : ∀ regex i operands operators cni operands' cni',
  lo ≤ cni → operands_ok lo cni operands →
  from_regex_loop priority fuel regex i operands operators cni = inr (operands', cni') →
  cni ≤ cni' ∧ operands_ok lo cni' operands'.
Proof.
  induction fuel as [|fuel IH];
    intros regex i operands operators cni operands' cni' Hc Hops; [discriminate|].
  simpl. destruct (regex !! i) as [c|]; [|by apply drain_ok].
  assert (∀ (m : M (option NFA)) j ors,
            (∀ o c1, m cni = inr (o, c1) →
                     cni ≤ c1 ∧ ∀ f, o = Some f → frag_ok cni c1 f) →
            bind m (λ f, from_regex_loop priority fuel regex j (push f operands) ors) cni
              = inr (operands', cni') →
            cni ≤ cni' ∧ operands_ok lo cni' operands') as Hpush.
  { intros m j ors Hm. rewrite bind_inr. intros (o & c1 & Ho & H).
    apply Hm in Ho as [Hle Hof].
    apply IH in H as [Hle' Hok']; [split; [lia | done]|lia|].
    by eapply push_operand_ok. }
  assert (∀ r o c1, from_simple_regex r cni = inr (o, c1) →
                    cni ≤ c1 ∧ ∀ f, o = Some f → frag_ok cni c1 f) as Hsimple.
  { intros r [f|] c1 H.
    - apply from_simple_regex_ok in H as [? ?]; [|lia]. split; [done|]. by intros ? [= <-].
    - unfold from_simple_regex in H. destruct (findall_simple r); [|exfalso].
      + injection H as <-. split; [lia | done].
      + apply bind_inr in H as (? & ? & _ & H).
        by apply bind_inr in H as (? & ? & _ & [=]). }
  destruct (c =? ch_lparen).
  { destruct (match_bracket _ _ _) as [e|after]; [discriminate|].
    rewrite bind_inr. intros (sub & c1 & Hsub & H).
    apply IH in Hsub as [Hle Hsubok]; [|lia|apply operands_ok_nil].
    apply IH in H as [Hle' Hok']; [split; [lia | done]|lia|].
    apply operands_ok_cons.
    - intros f Hf%final_pop_Some. by apply Hsubok.
    - eapply operands_ok_weaken; [| |exact Hops]; lia. }
  destruct (if c =? ch_backslash then _ else _) as [next|].
  { apply Hpush. destruct (next =? ch_L); [|apply Hsimple].
    intros o c1. rewrite bind_inr. intros (e & c2 & He & [= <- <-]).
    apply empty_ok in He as [? ?]. split; [done|]. by intros f [= <-]. }
  destruct (negb (is_operator c)).
  - destruct (regex !! S i) as [m|]; [destruct (regex !! S (S i)) as [x|]|];
      [destruct (m =? ch_minus)|..]; apply Hpush, Hsimple.
  - rewrite bind_inr. intros ([ops1 ors1] & c1 & Hs & H).
    apply scan_operator_ok in Hs as [Hle Hok]; [|done..].
    apply IH in H as [Hle' Hok']; [split; [lia | done]|lia|done].
Qed.

Lemma from_regex_ok regex cni f cni' :
  lo ≤ cni →
  from_regex priority regex cni = inr (Some f, cni') →
  cni ≤ cni' ∧ frag_ok lo cni' f.
Proof.
  intros Hc. unfold from_regex. rewrite bind_inr.
  intros (operands & c1 & H & [= Hf <-]).
  apply from_regex_loop_ok in H as [Hle Hok]; [|done|apply operands_ok_nil].
  split; [done|]. by apply Hok, final_pop_Some.
Qed.

End CompilerInvariant.

(** ** Acceptance labels through [from_tokens] *)

Lemma tag_acceptance_inr o token_name t :
  tag_acceptance o token_name = inr t →
  ∃ f e attrs,
    o = Some f ∧ end_node f = Some e ∧ node (graph f) !! e = Some attrs ∧
    start_node t = start_node f ∧ end_node t = Some e ∧
    node (graph t) = <[e := <["acceptance"%string := token_name]> attrs]> (node (graph f)).
Proof.
  unfold tag_acceptance. destruct o as [f|]; [|discriminate].
  destruct (end_node f) as [e|] eqn:He; [|discriminate].
  destruct (node (graph f) !! e) as [attrs|] eqn:Hn; [|discriminate].
  intros [= <-]. exists f, e, attrs. by rewrite He.
Qed.

Lemma compile_token_ok priority addc token cni t cni' :
  1 ≤ cni →
  compile_token priority addc token cni = inr (t, cni') →
  cni ≤ cni' ∧ frag_ok cni cni' t ∧
  ∃ e, end_node t = Some e ∧
       get_token_name_from_acceptance_node t e = Some (name token).
Proof.
  intros Hc. unfold compile_token. rewrite bind_inr.
  intros (o & c1 & Hre & [Htag ->]%lift_inr).
  apply tag_acceptance_inr in Htag as (f & e & attrs & -> & He & Hn & Hst & Het & Hnode).
  apply from_regex_ok with (lo := cni) in Hre as [Hle (s & e' & Hs & He' & ? & ? & ? & Hin)];
    [|done..].
  rewrite He in He'. injection He' as <-.
  split; [done|]. split.
  - exists s, e. unfold nodes_in. rewrite Hst, Het, Hnode, dom_insert_L.
    split_and!; try done; try lia.
    + set_solver.
    + intros n [->%elem_of_singleton|?]%elem_of_union; [lia | auto].
  - exists e. split; [done|]. unfold get_token_name_from_acceptance_node.
    by rewrite Hnode, lookup_insert_eq, lookup_insert_eq.
Qed.

Lemma union_node_lookup A B cni r cni' sA eA sB eB :
  start_node A = Some sA → end_node A = Some eA →
  start_node B = Some sB → end_node B = Some eB →
  union A B cni = inr (r, cni') →
  (∀ n attrs, node (graph B) !! n = Some attrs → node (graph r) !! n = Some attrs) ∧
  (∀ n attrs, n ∉ dom (node (graph B)) → node (graph A) !! n = Some attrs →
              node (graph r) !! n = Some attrs).
Proof.
  intros HsA HeA HsB HeB. rewrite (union_inr A B cni sA eA sB eB) by done.
  intros [= <- <-]. cbn [graph]. unfold compose. cbn [node]. split.
  - intros n attrs H. by apply lookup_union_Some_l.
  - intros n attrs Hn%not_elem_of_dom H. rewrite lookup_union_r by done.
    by do 4 apply node_add_edge_lookup.
Qed.

Lemma foldM_log priority addc rest : ∀ acc ends cni nfa cni',
  foldM (λ nfa token,
           let* token_nfa := compile_token priority addc token in
           union nfa token_nfa) acc rest cni = inr (nfa, cni') →
  ∃ ends',
    foldM (λ acc token,
             let* token_nfa := compile_token priority addc token in
             let* nfa := union acc.1 token_nfa in
             ret (nfa, acc.2 ++ [end_node token_nfa])) (acc, ends) rest cni
    = inr ((nfa, ends'), cni').
Proof.
  induction rest as [|token rest IH]; intros acc ends cni nfa cni'; simpl.
  - intros [= <- <-]. by exists ends.
  - rewrite bind_inr. intros (acc1 & c1 & H1 & H2).
    apply bind_inr in H1 as (t & c0 & Ht & Hu).
    destruct (IH acc1 (ends ++ [end_node t]) _ _ _ H2) as [ends' Hends].
    exists ends'. apply bind_inr. exists (acc1, ends ++ [end_node t]), c1.
    split; [|done]. apply bind_inr. exists t, c0. split; [done|].
    apply bind_inr. exists acc1, c1. done.
Qed.

Lemma from_tokens_log_erase priority addc tokens cni nfa cni' :
  from_tokens priority addc tokens cni = inr (nfa, cni') →
  ∃ ends, from_tokens_log priority addc tokens cni = inr ((nfa, ends), cni').
Proof.
  destruct tokens as [|first rest]; [discriminate|]. simpl.
  rewrite bind_inr. intros (f & c1 & Hf & Hloop).
  destruct (foldM_log _ _ _ _ [end_node f] _ _ _ Hloop) as [ends Hends].
  exists ends. apply bind_inr. eauto.
Qed.

Lemma log_loop_ok priority addc lo rest : ∀ done acc ends cni r cni',
  1 ≤ lo → lo ≤ cni → frag_ok lo cni acc →
  Forall2 (labelled lo acc cni) done ends →
  foldM (λ acc token,
           let* token_nfa := compile_token priority addc token in
           let* nfa := union acc.1 token_nfa in
           ret (nfa, acc.2 ++ [end_node token_nfa])) (acc, ends) rest cni
    = inr (r, cni') →
  Forall2 (labelled lo r.1 cni') (done ++ rest) r.2.
Proof.
  induction rest as [|token rest IH]; intros done acc ends cni r cni' Hlo Hc Hacc Hdone;
    simpl.
  - intros [= <- <-]. by rewrite app_nil_r.
  - rewrite bind_inr. intros ([acc1 ends1] & c1 & H1 & H2).
    apply bind_inr in H1 as (t & c0 & Ht & Hu).
    apply bind_inr in Hu as (nfa & c2 & Hu & [= <- <- <-]). simpl in Hu.
    apply compile_token_ok in Ht as (Hle0 & Htok & e & He & Hlabel); [|lia].
    assert (frag_ok lo c0 acc) as Hacc0 by (eapply frag_ok_weaken; [| |exact Hacc]; lia).
    assert (frag_ok lo c0 t) as Htok0 by (eapply frag_ok_weaken; [| |exact Htok]; lia).
    pose proof (union_ok lo acc t c0 nfa c2 ltac:(lia) Hacc0 Htok0 Hu) as [Hle1 Hnfa].
    destruct Hacc as (sA & eA & HsA & HeA & _).
    destruct Htok as (sB & eB & HsB & HeB & ? & ? & ? & HinB).
    destruct (union_node_lookup _ _ _ _ _ _ _ _ _ HsA HeA HsB HeB Hu) as [HB HA].
    replace (done ++ token :: rest) with ((done ++ [token]) ++ rest)
      by (by rewrite <- app_assoc).
    eapply (IH (done ++ [token]) nfa (ends ++ [end_node t]) c2);
      [done|lia|done| |exact H2].
    apply Forall2_app.
    + eapply Forall2_impl; [exact Hdone|].
      intros tok oe (n & -> & Hn & Hacc_n). exists n. split_and!; [done|lia..|].
      unfold get_token_name_from_acceptance_node in *.
      destruct (node (graph acc) !! n) as [attrs|] eqn:Hattrs; [|discriminate].
      assert (node (graph nfa) !! n = Some attrs) as ->; [|done].
      apply HA; [|done]. intros Hin%HinB. lia.
    + constructor; [|constructor]. exists e. rewrite He in HeB.
      injection HeB as <-. split_and!; [done|lia..|].
      unfold get_token_name_from_acceptance_node in *.
      destruct (node (graph t) !! e) as [attrs|] eqn:Hattrs; [|discriminate].
      by rewrite (HB e attrs).
Qed.

(** C7. After [from_tokens] has tagged the end state of each token's
    fragment with the token's name and has united the fragments, the
    acceptance label of each token's end state in the resulting automaton
    is that token's own name. *)
Theorem from_tokens_keeps_labels priority addc tokens cni nfa cni' :
  1 ≤ cni →
  from_tokens priority addc tokens cni = inr (nfa, cni') →
  ∃ ends,
    from_tokens_log priority addc tokens cni = inr ((nfa, ends), cni') ∧
    Forall2 (λ token oe,
               ∃ e, oe = Some e ∧
                    get_token_name_from_acceptance_node nfa e = Some (name token))
            tokens ends.
Proof.
  intros Hc Hft. destruct (from_tokens_log_erase _ _ _ _ _ _ Hft) as [ends Hlog].
  exists ends. split; [done|].
  destruct tokens as [|first rest]; [discriminate|]. simpl in Hlog.
  apply bind_inr in Hlog as (f & c1 & Hf & Hloop).
  apply compile_token_ok in Hf as (Hle & Hok & e & He & Hlabel); [|done].
  eapply (log_loop_ok _ _ cni rest [first]) in Hloop; [|done|done|done|].
  - eapply Forall2_impl; [exact Hloop|]. intros tok oe (n & -> & _ & Hn). eauto.
  - constructor; [|constructor]. exists e.
    destruct Hok as (s & e' & _ & He' & _ & ? & _).
    assert (e' = e) as -> by congruence. split_and!; try done; lia.
Qed.

Lemma from_tokens_keeps_labels_witness :
  1 ≤ 1 ∧
  ∃ nfa cni' e1 e2,
    from_tokens spec_priority spec_add_concatenation [bibo; digit] 1 = inr (nfa, cni') ∧
    from_tokens_log spec_priority spec_add_concatenation [bibo; digit] 1
      = inr ((nfa, [Some e1; Some e2]), cni') ∧
    get_token_name_from_acceptance_node nfa e1 = Some "bibo"%string ∧
    get_token_name_from_acceptance_node nfa e2 = Some "digit"%string.
Proof.
  split; [lia|].
  destruct (from_tokens spec_priority spec_add_concatenation [bibo; digit] 1)
    as [e|[nfa cni']] eqn:Hft; [by vm_compute in Hft|].
  destruct (from_tokens_keeps_labels spec_priority spec_add_concatenation
              [bibo; digit] 1 nfa cni' ltac:(lia) Hft) as (ends & Hlog & Hall).
  apply Forall2_cons_inv_l in Hall as (oe1 & ends1 & (e1 & -> & H1) & Hall & ->).
  apply Forall2_cons_inv_l in Hall as (oe2 & ends2 & (e2 & -> & H2) & Hall & ->).
  apply Forall2_nil_inv_l in Hall as ->.
  exists nfa, cni', e1, e2. done.
Defined.

(** ** The fuel of [from_regex] *)




(** ** The exceptions of a compilation that starts at a positive counter *)






Section CompilerExceptions.
Variable priority : Z → Z.
Variable lo : Z.
Hypothesis lo_pos : 1 ≤ lo.





End CompilerExceptions.


(** ** [get_epsilon_closures] on a single node *)

Lemma get_epsilon_closures_node_total fa n st :
  get_epsilon_closures fa (PyNode n) st ≠ inl RecursionError.
Proof.
  unfold get_epsilon_closures, closure_fuel.
  set (l := fresh (dom (heap st))).
  set (st0 := {| memo := memo st; heap := <[l := {[n]}]> (heap st) |}).
  change (get_epsilon_closures_fuel
            (S (size (closure_universe fa (memo st0) (arg_value (PyNode n) st))))
            fa (PySet l) st0 ≠ inl RecursionError).
  apply closures_fuel_total. unfold st0 at 2 3. rewrite deref_insert. simpl.
  apply Nat.lt_succ_r, subseteq_size. set_solver.
Qed.

(** ** Running an automaton over an input *)

Lemma reach_rtc fa u u' xs v :
  rtc (eps_succ fa) u u' → reach fa u' xs v → reach fa u xs v.
Proof.
  intros Hrtc Hr. inversion Hr as [? ? H|? n d x xs' ? H Ht Hr']; subst.
  - apply reach_nil. by etrans.
  - eapply reach_cons; [|done..]. by etrans.
Qed.

Lemma move_memo_ext fa source input st dest st' :
  move fa source input st = inr (dest, st') → memo_ext fa (memo st) (memo st').
Proof.
  intros (l & st0 & st1 & Has & Hcl & Hm & _)%move_inr.
  apply as_set_inr in Has as [Hm0 _].
  apply get_epsilon_closures_inr in Hcl as (_ & He & _).
  by rewrite Hm, <- Hm0.
Qed.

(** Under a sound memo table, the set that [get_epsilon_closures] returns
    is closed under the epsilon steps. *)
Lemma get_epsilon_closures_closed fa l st l' st' :
  memo_sound fa (memo st) →
  get_epsilon_closures fa (PySet l) st = inr (l', st') →
  ∀ n m, n ∈ deref st' l → eps_succ fa n m → m ∈ deref st' l.
Proof.
  intros Hs Hcl.
  pose proof (get_epsilon_closures_inr _ _ _ _ _ Hcl) as (-> & He & _ & _ & Hclosed & _).
  pose proof (memo_ext_sound _ _ _ Hs He) as Hs'.
  intros n m Hn (s & Hb & Hm). destruct (Hclosed n Hn) as (s' & Hs'n & Hsub).
  apply Hs' in Hs'n. rewrite Hb in Hs'n. injection Hs'n as ->. auto.
Qed.

Lemma move_semantic fa source input st dest st' :
  memo_sound fa (memo st) →
  move fa source input st = inr (dest, st') →
  ∀ d, d ∈ dest ↔
       ∃ n x, eps_closure_of fa (arg_value source st) n
              ∧ x ∈ input_set input ∧ transition fa n d x.
Proof.
  intros Hs (l & st0 & st1 & Has & Hcl & _ & _ & Hd)%move_inr d.
  apply as_set_inr in Has as [Hm Hv]. rewrite Hd. rewrite <- Hm in Hs.
  pose proof (get_epsilon_closures_semantic _ _ _ _ _ Hs Hcl) as Hsem.
  rewrite Hv in Hsem. split; intros (n & x & Hn & H); exists n, x;
    (split; [by apply Hsem | done]).
Qed.

Lemma step_input_spec fa l x st l' st' :
  memo_sound fa (memo st) →
  (∀ n m, n ∈ deref st l → eps_succ fa n m → m ∈ deref st l) →
  step_input fa l x st = inr (l', st') →
  memo_sound fa (memo st') ∧
  (∀ n m, n ∈ deref st' l' → eps_succ fa n m → m ∈ deref st' l') ∧
  ∀ v, v ∈ deref st' l' ↔
       ∃ u n d, u ∈ deref st l ∧ rtc (eps_succ fa) u n ∧ transition fa n d x
                ∧ rtc (eps_succ fa) d v.
Proof.
  intros Hs Hclosed. unfold step_input. rewrite bind_inr.
  intros (dest & st1 & Hmove & H).
  apply bind_inr in H as (l1 & st2 & [= <- <-] & Hcl).
  pose proof (move_memo_ext _ _ _ _ _ _ Hmove) as He1.
  pose proof (memo_ext_sound _ _ _ Hs He1) as Hs1.
  pose proof (move_semantic _ _ _ _ _ _ Hs Hmove) as Hdest. simpl in Hdest.
  set (l1 := fresh (dom (heap st1))) in *.
  set (st2 := {| memo := memo st1; heap := <[l1 := dest]> (heap st1) |}) in *.
  assert (deref st2 l1 = dest) as Hd by apply deref_insert.
  pose proof (get_epsilon_closures_inr _ _ _ _ _ Hcl) as (-> & He2 & _).
  split_and!.
  - by eapply memo_ext_sound.
  - by eapply (get_epsilon_closures_closed fa l1 st2).
  - intros v. rewrite (get_epsilon_closures_semantic fa l1 st2 l1 st' Hs1 Hcl), Hd.
    split.
    + intros (d & Hdin & Hrtc). apply Hdest in Hdin as (n & x' & (u & Hu & Hun) & Hx & Ht).
      apply elem_of_singleton in Hx as ->. eauto 10.
    + intros (u & n & d & Hu & Hun & Ht & Hdv). exists d. split; [|done].
      apply Hdest. exists n, x. split_and!; [by exists u|set_solver|done].
Qed.

Lemma run_steps_spec fa xs : ∀ l st l' st',
  memo_sound fa (memo st) →
  (∀ n m, n ∈ deref st l → eps_succ fa n m → m ∈ deref st l) →
  foldM (step_input fa) l xs st = inr (l', st') →
  ∀ v, v ∈ deref st' l' ↔ ∃ u, u ∈ deref st l ∧ reach fa u xs v.
Proof.
  induction xs as [|x xs IH]; intros l st l' st' Hs Hclosed; simpl.
  - intros [= <- <-] v. split.
    + intros Hv. exists v. split; [done|]. apply reach_nil, rtc_refl.
    + intros (u & Hu & Hr). inversion Hr as [? ? Hrtc|]; subst. clear Hr.
      revert Hu. induction Hrtc as [|a0 b0 c0 Hab _ IHr]; [done|].
      intros Ha0. apply IHr. by eapply Hclosed.
  - rewrite bind_inr. intros (l1 & st1 & Hstep & Hrest).
    apply step_input_spec in Hstep as (Hs1 & Hclosed1 & Hv1); [|done..].
    intros v. rewrite (IH _ _ _ _ Hs1 Hclosed1 Hrest). split.
    + intros (u1 & (u & n & d & Hu & Hun & Ht & Hd)%Hv1 & Hr).
      exists u. split; [done|]. eapply reach_cons; [done..|]. by eapply reach_rtc.
    + intros (u & Hu & Hr).
      inversion Hr as [|? n d ? ? ? Hun Ht Hr']; subst.
      exists d. split; [|done]. apply Hv1. exists u, n, d. by split_and!.
Qed.

(** Under a sound memo table, stepping [move] and the closure over an
    input from the closed start state ends in the set of the states that
    the input leads to. *)
Lemma run_input_spec fa s xs st R st' :
  memo_sound fa (memo st) →
  run_input fa s xs st = inr (R, st') →
  ∀ v, v ∈ R ↔ reach fa s xs v.
Proof.
  intros Hs. unfold run_input. rewrite bind_inr. intros (l0 & st0 & Hcl & H).
  apply bind_inr in H as (l1 & st1 & Hrun & [= <- <-]).
  set (l := fresh (dom (heap st))) in *.
  set (sta := {| memo := memo st; heap := <[l := {[s]}]> (heap st) |}).
  assert (deref sta l = {[s]}) as Hd by apply deref_insert.
  assert (get_epsilon_closures fa (PySet l) sta = inr (l0, st0)) as Hcl'.
  { unfold get_epsilon_closures, closure_fuel. cbn [arg_value]. rewrite Hd. exact Hcl. }
  pose proof (get_epsilon_closures_inr _ _ _ _ _ Hcl') as (-> & He & _).
  pose proof (get_epsilon_closures_semantic fa l sta l st0 Hs Hcl') as Hsem.
  rewrite Hd in Hsem.
  intros v. rewrite (run_steps_spec fa xs l st0 l1 st1); [| | |exact Hrun].
  - split.
    + intros (u & (u0 & ->%elem_of_singleton & Hrtc)%Hsem & Hr). by eapply reach_rtc.
    + intros Hr. exists s. split; [|done]. apply Hsem. exists s.
      split; [set_solver | apply rtc_refl].
  - by eapply (memo_ext_sound fa (memo sta)).
  - by eapply (get_epsilon_closures_closed fa l sta).
Qed.

(** C6, as stated, fails: the fragment of the range from [a] to [c] does
    not accept one character only.  Stepping [move] and the closure over
    the two-symbol input made of [a] and the character of the epsilon
    marker ends in the end state, the epsilon edge to the end state
    matching that character. *)
Lemma range_accepts_two_symbols :
  from_character_or_range NFA_new [97; ch_minus; 99] 1
    = inr (range_fragment 1 97 99, 9) ∧
  end_node (range_fragment 1 97 99) = Some 2 ∧
  (∃ st, run_input (range_fragment 1 97 99) 1 [97; epsilon] initial_tstate
           = inr ({[2]}, st)) ∧
  accepts_input (range_fragment 1 97 99) [97; epsilon].
Proof.
  assert (∃ st, run_input (range_fragment 1 97 99) 1 [97; epsilon] initial_tstate
                  = inr ({[2]}, st)) as [st Hrun].
  { eexists. vm_compute. reflexivity. }
  split_and!; [by vm_compute|done|by exists st|].
  exists 1, 2. split_and!; [done..|].
  apply (run_input_spec (range_fragment 1 97 99) 1 [97; epsilon] initial_tstate
           {[2]} st (memo_sound_empty _) Hrun).
  set_solver.
Qed.

(** ** Graphs that grow *)

Lemma graph_ext_refl G : graph_ext G G.
Proof. split; [done|]. intros k ws H. exists []. by rewrite app_nil_r. Qed.
















(** ** The inputs that the fragment of one character accepts *)

Section LiteralFragment.
Variables s e c : Z.
Hypothesis Hse : s ≠ e.






End LiteralFragment.

(** ** The inputs that the empty fragment accepts *)

Section EmptyFragment.
Variable cni : Z.







End EmptyFragment.

(** ** The inputs that the combined fragments accept *)






Section Component.
Variables (r C : NFA) (l h eC t : Z) (has_exit : Prop).
Hypothesis HwfC : graph_wf (graph C).
Hypothesis HnC : nodes_in l h (graph C).
Hypothesis Hadj : ∀ u v ws,
  l ≤ u < h → adj (graph r) !! (u, v) = Some ws →
  adj (graph C) !! (u, v) = Some ws ∨ (has_exit ∧ u = eC ∧ v = t ∧ ws = [W_epsilon]).







End Component.


Section Combined.
Variables (lo mid hi : Z) (A B : NFA) (sA eA sB eB : Z).
Hypothesis HwfA : graph_wf (graph A).
Hypothesis HwfB : graph_wf (graph B).
Hypothesis HsA : start_node A = Some sA.
Hypothesis HeA : end_node A = Some eA.
Hypothesis HsB : start_node B = Some sB.
Hypothesis HeB : end_node B = Some eB.
Hypothesis HrA : lo ≤ sA < mid ∧ lo ≤ eA < mid.
Hypothesis HrB : mid ≤ sB < hi ∧ mid ≤ eB < hi.
Hypothesis HnA : nodes_in lo mid (graph A).
Hypothesis HnB : nodes_in mid hi (graph B).












End Combined.












(** ** The inputs that the fragment of a simple regex accepts *)










(** ** The states and the exceptions of a compilation *)





(** ** A regex in brackets *)




(** ** The utilities *)




(** ** The key of the memo table *)



(** ** The closure of a node that the automaton does not have *)



(** ** The traversal of a compiled fragment *)




















Section CompilerTraversal.
Variable priority : Z → Z.
Variable lo : Z.
Hypothesis lo_pos : 1 ≤ lo.





End CompilerTraversal.









